(** * The model exporter of pi-llama ([src-osx/convert.py])

    A shallow embedding of the export pipeline: the two grouped symmetric
    quantizers ([quantize_q80], [quantize_q40]), the three tensor serializers
    ([serialize_fp32], [serialize_int8], [serialize_int4]) and the three
    export routines behind [model_export].

    Numbers.  Python integers are [Z].  NumPy [int8] values are [Z] with the
    wrap-around of the 8-bit type written out ([wrap8]).  Tensor elements are
    floating-point values ([f32]): a finite number with its exact rational
    value, the negative zero, NaN and the two infinities.  The quantizers
    compute in float32, as the source does: a tensor is first converted
    ([w.float()], [to_float32]), and every division, multiplication and
    subtraction is the exact operation followed by the rounding to the
    nearest binary32 number, ties to even ([round32]), with the special
    cases of IEEE 754 (division by zero, signed zeros, overflow to an
    infinity, gradual underflow).  The last section replays the inputs on
    which the code is shown to differ from its description with the
    arithmetic of the standard library's specification of IEEE 754.

    Effects.  A file is the list of the bytes written so far; code that
    writes runs in the monad [IO], which keeps the bytes written before an
    exception.  An export returns the content of the file it opened, if it
    opened one, and [Ok tt] or the exception raised.  Printing and the
    error log [ew] of the quantizing exports do not touch the file and are
    left out. *)

From Stdlib Require Import ZArith QArith Qpower Qround Qabs Qminmax List Bool.
From Stdlib Require Import Lia Lqa.
From Stdlib Require Import SpecFloat.
Import ListNotations.

Local Open Scope Z_scope.

(** ** Python exceptions and the two monads of the embedding *)

Inductive exn : Type :=
| AssertionError
| IndexError
| RuntimeError
| StructError
| UnboundLocalError
| ValueError
| ZeroDivisionError.

Inductive result (A : Type) : Type :=
| Ok (a : A)
| Raise (e : exn).
Arguments Ok {A} a.
Arguments Raise {A} e.

Definition rbind {A B : Type} (r : result A) (k : A -> result B) : result B :=
  match r with
  | Ok a => k a
  | Raise e => Raise e
  end.

(** A byte of a file is a [Z] in [0, 256). *)
Definition byte : Type := Z.

(** The content of a file opened in ["wb+"] mode.  The exporter only ever
    appends, so the position [tell] reports is the length. *)
Definition file : Type := list byte.

(** Code that writes to an open file and may raise: the bytes written before
    the exception stay in the file. *)
Definition IO (A : Type) : Type := file -> file * result A.

Definition io_ret {A : Type} (a : A) : IO A := fun f => (f, Ok a).

Definition io_bind {A B : Type} (m : IO A) (k : A -> IO B) : IO B :=
  fun f =>
    match m f with
    | (f', Ok a) => k a f'
    | (f', Raise e) => (f', Raise e)
    end.

Definition io_lift {A : Type} (r : result A) : IO A := fun f => (f, r).

Definition write (b : list byte) : IO unit := fun f => (f ++ b, Ok tt).

Definition tell : IO Z := fun f => (f, Ok (Z.of_nat (length f))).

Definition py_assert (b : bool) : result unit :=
  if b then Ok tt else Raise AssertionError.

Declare Scope io_scope.
Delimit Scope io_scope with io.
Notation "x <- m ;; k" := (io_bind m (fun x => k))
  (at level 61, m at next level, right associativity) : io_scope.
Notation "m ;; k" := (io_bind m (fun _ => k))
  (at level 61, right associativity) : io_scope.

Declare Scope result_scope.
Delimit Scope result_scope with res.
Notation "x <- m ;; k" := (rbind m (fun x => k))
  (at level 61, m at next level, right associativity) : result_scope.
Notation "m ;; k" := (rbind m (fun _ => k))
  (at level 61, right associativity) : result_scope.

(** [for x in l: body(x)] *)
Fixpoint io_for {A : Type} (l : list A) (body : A -> IO unit) : IO unit :=
  match l with
  | [] => io_ret tt
  | x :: l' => (body x ;; io_for l' body)%io
  end.

(** [for x in l: body(x)], without a file. *)
Fixpoint rfor {A : Type} (l : list A) (body : A -> result unit) : result unit :=
  match l with
  | [] => Ok tt
  | x :: l' => (body x ;; rfor l' body)%res
  end.

(** [map2 f l1 l2] combines two tensors row by row (broadcasting along the
    first axis). *)
Fixpoint map2 {A B C : Type} (f : A -> B -> C) (l1 : list A) (l2 : list B)
  : list C :=
  match l1, l2 with
  | a :: l1', b :: l2' => f a b :: map2 f l1' l2'
  | _, _ => []
  end.

(** ** Fixed-width integers and [struct.pack] *)

(** Reduction of an integer to the range of a signed 8-bit integer
    ([numpy.int8] arithmetic, [astype(np.int8)]). *)
Definition wrap8 (z : Z) : Z := (z + 128) mod 256 - 128.

(** The [n] low bytes of [z], least significant first. *)
Fixpoint le_bytes (n : nat) (z : Z) : list byte :=
  match n with
  | O => []
  | S n' => z mod 256 :: le_bytes n' (z / 256)
  end.

Definition MAGIC : Z := 0x616B3432.

(** What the source leaves to the machine it runs on. *)
Record Host : Type := {
  (** [struct.pack] without a byte-order prefix uses the native order. *)
  big_endian : bool;
  (** the int8 a conversion produces for a NaN, an infinity or a finite
      number beyond the range of int8 (given by its integer part): the
      conversion of a float that the integer type cannot represent is not
      defined by the language torch is written in *)
  nan_to_int8 : Z;
  posinf_to_int8 : Z;
  neginf_to_int8 : Z;
  out_of_range_to_int8 : Z -> Z;
  (** the 32 bits of a NaN: its sign and payload are not tracked *)
  nan_bits : Z
}.

Definition native_bytes (h : Host) (n : nat) (z : Z) : list byte :=
  if big_endian h then rev (le_bytes n z) else le_bytes n z.

(** [struct.pack("I", v)] *)
Definition pack_I (h : Host) (v : Z) : result (list byte) :=
  if (0 <=? v) && (v <? 2 ^ 32) then Ok (native_bytes h 4 v)
  else Raise StructError.

(** [struct.pack("i", v)] *)
Definition pack_i (h : Host) (v : Z) : result (list byte) :=
  if (- 2 ^ 31 <=? v) && (v <? 2 ^ 31) then Ok (native_bytes h 4 (v mod 2 ^ 32))
  else Raise StructError.

(** [struct.pack("B", v)] *)
Definition pack_B (v : Z) : result (list byte) :=
  if (0 <=? v) && (v <? 256) then Ok [v] else Raise StructError.

(** [struct.pack(f"{len(d)}b", *d)] for [d] an int8 array: one byte per
    element, in two's complement. *)
Definition pack_b (d : list Z) : list byte := map (fun v => v mod 256) d.

(** [struct.pack("iiiiiii", ...)] and any other run of [i] fields: the fields
    are all four bytes wide, so the native alignment inserts nothing. *)
Fixpoint pack_is (h : Host) (vs : list Z) : result (list byte) :=
  match vs with
  | [] => Ok []
  | v :: vs' =>
      (b <- pack_i h v ;; bs <- pack_is h vs' ;; Ok (b ++ bs))%res
  end.


(** ** float32 values *)

(** A floating-point value: [Finite q] is the number [q] (positive zero
    when [q] is 0), [NegZero] is [-0.0]. *)
Inductive f32 : Type :=
| Finite (q : Q)
| NegZero
| NaN
| PosInf
| NegInf.

(** Nearest integer, a tie going to the even neighbour: [torch.round]
    "rounds half to even". *)
Definition round_half_even (q : Q) : Z :=
  let f := Qfloor q in
  match (q - inject_Z f ?= 1 # 2)%Q with
  | Lt => f
  | Gt => f + 1
  | Eq => if Z.even f then f else f + 1
  end.

(** [floor_log2 a] is the [e] with [2 ^ e <= a < 2 ^ (e + 1)], for [0 < a]. *)
Definition floor_log2 (a : Q) : Z :=
  let e := Z.log2 (Qnum a) - Z.log2 (Zpos (Qden a)) in
  if Qle_bool (2 ^ e)%Q a then e else e - 1.

Definition f32_zero (negative : bool) : f32 :=
  if negative then NegZero else Finite 0.

Definition f32_inf (negative : bool) : f32 :=
  if negative then NegInf else PosInf.

(** The binary32 number nearest to the magnitude [a] ([0 <= a]), a tie
    going to the even significand, with the sign [negative]: 24 bits of
    significand [m] at the exponent [e] of [a], which is at least -126
    (below [2 ^ -126] the numbers are subnormal, and the result can be a
    zero); from [2 ^ 128 - 2 ^ 103] on the result is an infinity. *)
Definition round32 (negative : bool) (a : Q) : f32 :=
  if Qeq_bool a 0 then f32_zero negative
  else
    let e := Z.max (-126) (floor_log2 a) in
    let m := round_half_even (a * 2 ^ (23 - e))%Q in
    if 0x7F800000 <=? (e + 126) * 2 ^ 23 + m then f32_inf negative
    else if m =? 0 then f32_zero negative
    else
      let v := (inject_Z m * 2 ^ (e - 23))%Q in
      Finite (Qred (if negative then - v else v)).

Definition Qnegative (q : Q) : bool :=
  match (q ?= 0)%Q with
  | Lt => true
  | _ => false
  end.

(** The sign bit. *)
Definition f32_negative (x : f32) : bool :=
  match x with
  | Finite q => Qnegative q
  | NegZero | NegInf => true
  | NaN | PosInf => false
  end.

(** A value without its sign. *)
Inductive magnitude : Type :=
| MZero
| MFinite (a : Q)
| MInf
| MNaN.

Definition f32_magnitude (x : f32) : magnitude :=
  match x with
  | Finite q => if Qeq_bool q 0 then MZero else MFinite (Qabs q)
  | NegZero => MZero
  | NaN => MNaN
  | PosInf | NegInf => MInf
  end.

(** The number a finite value stands for. *)
Definition f32_value (x : f32) : Q :=
  match x with
  | Finite q => q
  | _ => 0%Q
  end.

Definition f32_finite (x : f32) : bool :=
  match x with
  | Finite _ | NegZero => true
  | _ => false
  end.

(** [x.float()], [x.to(torch.float32)] on one element: a float32 stays as
    it is, a value of a wider type is rounded. *)
Definition to_float32 (x : f32) : f32 :=
  match x with
  | Finite q => round32 (Qnegative q) (Qabs q)
  | _ => x
  end.

(** [torch.abs] *)
Definition f32_abs (x : f32) : f32 :=
  match x with
  | Finite q => Finite (Qabs q)
  | NegZero => Finite 0
  | NaN => NaN
  | PosInf | NegInf => PosInf
  end.

(** [x / y] in float32: division by zero raises nothing, [0 / 0] and
    [inf / inf] are NaN, [x / 0] is an infinity and [x / inf] a zero, with
    the sign of the quotient. *)
Definition f32_div (x y : f32) : f32 :=
  let s := xorb (f32_negative x) (f32_negative y) in
  match f32_magnitude x, f32_magnitude y with
  | MNaN, _ | _, MNaN => NaN
  | MInf, MInf | MZero, MZero => NaN
  | MInf, _ | _, MZero => f32_inf s
  | _, MInf | MZero, _ => f32_zero s
  | MFinite a, MFinite b => round32 s (a / b)
  end.

(** [x * y] in float32 *)
Definition f32_mul (x y : f32) : f32 :=
  let s := xorb (f32_negative x) (f32_negative y) in
  match f32_magnitude x, f32_magnitude y with
  | MNaN, _ | _, MNaN => NaN
  | MInf, MZero | MZero, MInf => NaN
  | MInf, _ | _, MInf => f32_inf s
  | MZero, _ | _, MZero => f32_zero s
  | MFinite a, MFinite b => round32 s (a * b)
  end.

(** [x - y] in float32: a difference that is exactly zero is [+0.0],
    except [-0.0 - (+0.0)]. *)
Definition f32_sub (x y : f32) : f32 :=
  match f32_magnitude x, f32_magnitude y with
  | MNaN, _ | _, MNaN => NaN
  | MInf, MInf =>
      if Bool.eqb (f32_negative x) (f32_negative y) then NaN
      else f32_inf (f32_negative x)
  | MInf, _ => f32_inf (f32_negative x)
  | _, MInf => f32_inf (negb (f32_negative y))
  | _, _ =>
      let d := (f32_value x - f32_value y)%Q in
      if Qeq_bool d 0
      then f32_zero (f32_negative x && negb (f32_negative y))
      else round32 (Qnegative d) (Qabs d)
  end.

(** The comparison of two floats: a NaN compares with nothing, the two
    zeros are equal. *)
Definition f32_compare (x y : f32) : option comparison :=
  match x, y with
  | NaN, _ | _, NaN => None
  | NegInf, NegInf | PosInf, PosInf => Some Eq
  | NegInf, _ | _, PosInf => Some Lt
  | _, NegInf | PosInf, _ => Some Gt
  | _, _ => Some (f32_value x ?= f32_value y)%Q
  end.

(** [x == y] *)
Definition f32_eqb (x y : f32) : bool :=
  match f32_compare x y with
  | Some Eq => true
  | _ => false
  end.

(** [x <= y] *)
Definition f32_leb (x y : f32) : bool :=
  match f32_compare x y with
  | Some Eq | Some Lt => true
  | _ => false
  end.

(** The maximum of two floats as [torch.max] reduces: it "propagates
    NaN". *)
Definition f32_max (x y : f32) : f32 :=
  match f32_compare x y with
  | None => NaN
  | Some Lt => y
  | Some _ => x
  end.

(** [torch.round] on one element: a result that is zero keeps the sign. *)
Definition torch_round (x : f32) : f32 :=
  match x with
  | Finite q =>
      let r := round_half_even q in
      if r =? 0 then f32_zero (Qnegative q) else Finite (inject_Z r)
  | _ => x
  end.

(** Truncation toward zero. *)
Definition Qtrunc (q : Q) : Z := Z.quot (Qnum q) (Zpos (Qden q)).

(** [x.to(torch.int8)]: the integer part of a number that int8 holds, and
    what the machine gives for any other value. *)
Definition to_int8 (h : Host) (x : f32) : Z :=
  match x with
  | Finite q =>
      let z := Qtrunc q in
      if (-128 <=? z) && (z <=? 127) then z
      else wrap8 (out_of_range_to_int8 h z)
  | NegZero => 0
  | NaN => wrap8 (nan_to_int8 h)
  | PosInf => wrap8 (posinf_to_int8 h)
  | NegInf => wrap8 (neginf_to_int8 h)
  end.

(** [v.float()] for an int8 [v] *)
Definition of_int8 (v : Z) : f32 := Finite (inject_Z v).

(** [torch.clamp(v, lo, hi)] on one element *)
Definition clamp (lo hi v : Z) : Z := Z.min hi (Z.max lo v).

(** ** Tensors *)

(** A float tensor: its shape and its elements in row-major order.
    [numel] is the number of elements. *)
Record tensor : Type := {
  shape : list Z;
  data : list f32
}.

Definition numel (t : tensor) : Z := Z.of_nat (length (data t)).

(** [t.float()] *)
Definition float (t : tensor) : list f32 := map to_float32 (data t).

(** [torch.equal(a, b)]: same size and same elements. *)
Definition torch_equal (a b : tensor) : bool :=
  (if list_eq_dec Z.eq_dec (shape a) (shape b) then true else false)
  && (length (data a) =? length (data b))%nat
  && forallb (fun p => f32_eqb (fst p) (snd p)) (combine (data a) (data b)).

(** [t.max()] for a tensor that is not empty. *)
Definition max_of (l : list f32) : f32 :=
  match l with
  | [] => Finite 0
  | x :: l' => fold_left f32_max l' x
  end.

(** The [n] rows of [g] elements of a flat buffer. *)
Fixpoint rows_of (n g : nat) (d : list f32) : list (list f32) :=
  match n with
  | O => []
  | S n' => firstn g d :: rows_of n' g (skipn g d)
  end.

(** [w.reshape(-1, group_size)]: torch refuses a negative size, a size that
    does not divide the element count, and cannot infer the [-1] for a
    tensor without elements. *)
Definition reshape (d : list f32) (group_size : Z)
  : result (list (list f32)) :=
  let n := Z.of_nat (length d) in
  if (group_size <=? 0) || (n =? 0) || negb (n mod group_size =? 0)
  then Raise RuntimeError
  else Ok (rows_of (Z.to_nat (n / group_size)) (Z.to_nat group_size) d).

(** Row-wise tensor operations of the quantizers. *)
Definition t_abs (w : list (list f32)) : list (list f32) :=
  map (map f32_abs) w.

(** [t.max(dim=1).values] *)
Definition max_dim1 (w : list (list f32)) : list f32 := map max_of w.

(** [v / c] *)
Definition div_scalar (v : list f32) (c : f32) : list f32 :=
  map (fun x => f32_div x c) v.

(** [w / scale[:, None]] *)
Definition div_rows (w : list (list f32)) (scale : list f32)
  : list (list f32) :=
  map2 (fun row s => map (fun x => f32_div x s) row) w scale.

(** [torch.round(quant).to(torch.int8)] *)
Definition round_to_int8 (h : Host) (quant : list (list f32))
  : list (list Z) :=
  map (map (fun x => to_int8 h (torch_round x))) quant.

(** [v.float() * scale[:, None]] *)
Definition mul_rows (v : list (list Z)) (scale : list f32)
  : list (list f32) :=
  map2 (fun row s => map (fun x => f32_mul (of_int8 x) s) row) v scale.

(** [torch.abs(a - b)] *)
Definition abs_diff (a b : list (list f32)) : list (list f32) :=
  map2 (map2 (fun x y => f32_abs (f32_sub x y))) a b.

(** ** The float32 encoding *)

(** The bits of the IEEE 754 binary32 number nearest to [q], ties to even:
    sign, 8 bits of biased exponent, 23 bits of fraction.  Below [2 ^ -126]
    the numbers are subnormal; beyond the largest finite one the result is
    an infinity. *)
Definition binary32_bits (q : Q) : Z :=
  let a := Qabs q in
  if Qeq_bool a 0 then 0
  else
    let sign := match (q ?= 0)%Q with Lt => 2 ^ 31 | _ => 0 end in
    let e := Z.max (-126) (floor_log2 a) in
    let m := round_half_even (a * 2 ^ (23 - e))%Q in
    sign + Z.min ((e + 126) * 2 ^ 23 + m) 0x7F800000.

(** The 32 bits of a float32, and of the float32 nearest to a value of a
    wider type. *)
Definition f32_bits (h : Host) (x : f32) : Z :=
  match x with
  | Finite q => binary32_bits q
  | NegZero => 0x80000000
  | NaN => nan_bits h
  | PosInf => 0x7F800000
  | NegInf => 0xFF800000
  end.

(** [struct.pack(f"{len(d)}f", *d)] *)
Definition pack_f (h : Host) (d : list f32) : list byte :=
  flat_map (fun x => native_bytes h 4 (f32_bits h x)) d.

(** ** Serializers *)

(** [tensor.detach().cpu().view(-1).numpy().astype(np.int8)] on a tensor of
    dtype int8, given as its rows. *)
Definition flat_int8 (t : list (list Z)) : list Z := map wrap8 (concat t).

(** [serialize_int8(file, tensor)] *)
Definition serialize_int8 (t : list (list Z)) : IO unit :=
  let d := flat_int8 t in
  let b := pack_b d in
  write b.

(** One element of
    [np.right_shift(d.astype(np.int8), 4)
     + np.left_shift(np.bitwise_and(d, 0x0F), 4).astype(np.int8)],
    every operand and the sum being int8. *)
Definition int4_byte (d : Z) : Z :=
  wrap8 (Z.shiftr (wrap8 d) 4 + wrap8 (wrap8 (Z.shiftl (Z.land d 0x0F) 4))).

(** [serialize_int4(file, tensor)]: the NumPy expression is element-wise. *)
Definition serialize_int4 (t : list (list Z)) : IO unit :=
  let d := flat_int8 t in
  let d := map int4_byte d in
  let b := pack_b d in
  write b.

(** [serialize_fp32(file, tensor)] *)
Definition serialize_fp32 (h : Host) (d : list f32) : IO unit :=
  let d := map to_float32 d in
  let b := pack_f h d in
  write b.


(** ** The quantizers *)

(** The local variables of a quantizer once [w] is reshaped. *)
Record locals : Type := {
  l_wmax : list f32;
  l_scale : list f32;
  l_quant : list (list f32);
  l_intval : list (list Z);
  l_fp32valr : list (list f32);
  l_err : list f32;
  l_maxerr : f32
}.

Definition q80_locals (h : Host) (w : list (list f32)) : locals :=
  let wmax := max_dim1 (t_abs w) in
  let scale := div_scalar wmax (Finite 127) in
  let quant := div_rows w scale in
  let int8val := round_to_int8 h quant in
  let fp32valr := mul_rows int8val scale in
  let err := max_dim1 (abs_diff fp32valr w) in
  let maxerr := max_of err in
  {| l_wmax := wmax; l_scale := scale; l_quant := quant;
     l_intval := int8val; l_fp32valr := fp32valr; l_err := err;
     l_maxerr := maxerr |}.

Definition q40_locals (h : Host) (w : list (list f32)) : locals :=
  let wmax := max_dim1 (t_abs w) in
  let scale := div_scalar wmax (Finite 7) in
  let quant := div_rows w scale in
  let int4val := round_to_int8 h quant in
  let int4val := map (map (clamp (-7) 7)) int4val in
  let fp32valr := mul_rows int4val scale in
  let err := max_dim1 (abs_diff fp32valr w) in
  let maxerr := max_of err in
  {| l_wmax := wmax; l_scale := scale; l_quant := quant;
     l_intval := int4val; l_fp32valr := fp32valr; l_err := err;
     l_maxerr := maxerr |}.

(** [assert w.numel() % group_size == 0] *)
Definition assert_divisible (n group_size : Z) : result unit :=
  if group_size =? 0 then Raise ZeroDivisionError
  else py_assert (n mod group_size =? 0).

(** [quantize_q80(w, group_size)]: the int8 values (one row per group), the
    scale of every group and the largest reconstruction error. *)
Definition quantize_q80 (h : Host) (w : tensor) (group_size : Z)
  : result (list (list Z) * list f32 * f32) :=
  (_ <- assert_divisible (numel w) group_size ;;
   let w := float w in
   w <- reshape w group_size ;;
   let l := q80_locals h w in
   Ok (l_intval l, l_scale l, l_maxerr l))%res.

(** [quantize_q40(w, group_size)] *)
Definition quantize_q40 (h : Host) (w : tensor) (group_size : Z)
  : result (list (list Z) * list f32 * f32) :=
  (_ <- assert_divisible (numel w) group_size ;;
   let w := float w in
   w <- reshape w group_size ;;
   let l := q40_locals h w in
   Ok (l_intval l, l_scale l, l_maxerr l))%res.

(** ** The model *)

(** Modelled from the spec: [model.py], which declares [ModelArgs] and
    [Transformer], is not among the sources.  These records hold the fields
    the exporter reads, under the names it reads them by; a parameter
    [weight] of a submodule is the tensor itself, and the key/value head
    count may be [None]. *)
Record ModelArgs : Type := {
  dim : Z;
  n_layers : Z;
  n_heads : Z;
  n_kv_heads : option Z;
  vocab_size : Z;
  max_seq_len : Z
}.

Record TransformerBlock : Type := {
  attention_norm : tensor;
  ffn_norm : tensor;
  wq : tensor;
  wk : tensor;
  wv : tensor;
  wo : tensor;
  w1 : tensor;
  w2 : tensor;
  w3 : tensor
}.

Record Transformer : Type := {
  params : ModelArgs;
  tok_embeddings : tensor;
  layers : list TransformerBlock;
  norm : tensor;
  output : tensor
}.

(** [model.layers[0].feed_forward.w1.weight.shape[0]] *)
Definition first_w1_rows (model : Transformer) : result Z :=
  match layers model with
  | [] => Raise IndexError
  | layer :: _ =>
      match shape (w1 layer) with
      | [] => Raise IndexError
      | n :: _ => Ok n
      end
  end.

(** [out_file.write(struct.pack(...))] *)
Definition write_packed (packed : result (list byte)) : IO unit :=
  (b <- io_lift packed ;; write b)%io.

(** The tensors the two quantizing exports quantize, and version 1 writes
    after the norms. *)
Definition heavy_weights (model : Transformer) : list tensor :=
  [tok_embeddings model]
  ++ map wq (layers model)
  ++ map wk (layers model)
  ++ map wv (layers model)
  ++ map wo (layers model)
  ++ map w1 (layers model)
  ++ map w2 (layers model)
  ++ map w3 (layers model).

(** ** Version 1: float32 *)

(** [version1_export(model, filepath)].  The first component of the result is
    the content of the file at [filepath] if the call opened it. *)
Definition version1_export (h : Host) (model : Transformer)
  : option file * result unit :=
  let version := 1 in
  let out_file : IO unit :=
    (write_packed (pack_I h MAGIC) ;;
     write_packed (pack_i h version) ;;
     let p := params model in
     hidden_dim <- io_lift (first_w1_rows model) ;;
     let n_kv_heads :=
       match n_kv_heads p with None => n_heads p | Some k => k end in
     let header :=
       pack_is h [dim p; hidden_dim; n_layers p; n_heads p; n_kv_heads;
                  vocab_size p; max_seq_len p] in
     write_packed header ;;
     let shared_classifier :=
       torch_equal (tok_embeddings model) (output model) in
     write_packed (pack_B (Z.b2z shared_classifier)) ;;
     pos <- tell ;;
     let pad := 256 - pos in
     io_lift (py_assert (0 <=? pad)) ;;
     write (repeat 0 (Z.to_nat pad)) ;;
     let weights :=
       map attention_norm (layers model)
       ++ map ffn_norm (layers model)
       ++ [norm model]
       ++ [tok_embeddings model]
       ++ map wq (layers model)
       ++ map wk (layers model)
       ++ map wv (layers model)
       ++ map wo (layers model)
       ++ map w1 (layers model)
       ++ map w2 (layers model)
       ++ map w3 (layers model) in
     let weights :=
       if shared_classifier then weights else weights ++ [output model] in
     io_for weights (fun w => serialize_fp32 h (data w)))%io in
  let (f, r) := out_file [] in
  (Some f, r).

(** ** Versions 2 and 3: grouped quantization *)

(** [while model.params.dim % group_size != 0: group_size //= 2], with the
    number of iterations bounded by [fuel]; [None] when the bound is
    reached. *)
Fixpoint backoff_loop (fuel : nat) (dim group_size : Z) : option (result Z) :=
  match fuel with
  | O => None
  | S fuel' =>
      if group_size =? 0 then Some (Raise ZeroDivisionError)
      else if negb (dim mod group_size =? 0)
           then backoff_loop fuel' dim (group_size / 2)
           else Some (Ok group_size)
  end.

(** More iterations than the loop can make. *)
Definition backoff_fuel (group_size : Z) : nat :=
  S (Z.to_nat (Z.log2_up (Z.abs group_size))).

(** The loop always ends within [backoff_fuel] iterations
    ([backoff_loop_terminates]), so the last branch is never taken. *)
Definition backoff (dim group_size : Z) : result Z :=
  match backoff_loop (backoff_fuel group_size) dim group_size with
  | Some r => r
  | None => Raise RuntimeError
  end.

(** The validation loop
    [for w in weights: assert w.numel() % group_size == 0, f"weight {i} ..."].
    The message of the assertion reads [i], a local variable that is only
    assigned by the later [for i, w in enumerate(weights)]: a failing
    assertion raises through the evaluation of its message. *)
Definition validate (weights : list tensor) (group_size : Z) : result unit :=
  rfor weights (fun w =>
    if group_size =? 0 then Raise ZeroDivisionError
    else if numel w mod group_size =? 0 then Ok tt
    else Raise UnboundLocalError).

(** [version2_export(model, filepath, group_size)] *)
Definition version2_export (h : Host) (model : Transformer) (group_size : Z)
  : option file * result unit :=
  let version := 2 in
  let validation :=
    (group_size <- backoff (dim (params model)) group_size ;;
     let weights := heavy_weights model in
     let shared_classifier :=
       torch_equal (tok_embeddings model) (output model) in
     let weights :=
       if shared_classifier then weights else weights ++ [output model] in
     validate weights group_size ;;
     Ok (group_size, weights, shared_classifier))%res in
  match validation with
  | Raise e => (None, Raise e)
  | Ok (group_size, weights, shared_classifier) =>
      let out_file : IO unit :=
        (write_packed (pack_I h MAGIC) ;;
         write_packed (pack_i h version) ;;
         let p := params model in
         hidden_dim <- io_lift (first_w1_rows model) ;;
         let n_kv_heads :=
           match n_kv_heads p with None => n_heads p | Some k => k end in
         let header :=
           pack_is h [dim p; hidden_dim; n_layers p; n_heads p; n_kv_heads;
                      vocab_size p; max_seq_len p] in
         write_packed header ;;
         write_packed (pack_B (Z.b2z shared_classifier)) ;;
         write_packed (pack_i h group_size) ;;
         pos <- tell ;;
         let pad := 256 - pos in
         io_lift (py_assert (0 <=? pad)) ;;
         write (repeat 0 (Z.to_nat pad)) ;;
         io_for (layers model) (fun layer =>
           serialize_fp32 h (data (attention_norm layer))) ;;
         io_for (layers model) (fun layer =>
           serialize_fp32 h (data (ffn_norm layer))) ;;
         serialize_fp32 h (data (norm model)) ;;
         io_for weights (fun w =>
           qse <- io_lift (quantize_q80 h w group_size) ;;
           let '(q, s, err) := qse in
           serialize_int8 q ;;
           serialize_fp32 h s))%io in
      let (f, r) := out_file [] in
      (Some f, r)
  end.

(** [version3_export(model, filepath, group_size)] *)
Definition version3_export (h : Host) (model : Transformer) (group_size : Z)
  : option file * result unit :=
  let version := 3 in
  let validation :=
    (group_size <- backoff (dim (params model)) group_size ;;
     let weights := heavy_weights model in
     let shared_classifier :=
       torch_equal (tok_embeddings model) (output model) in
     let weights :=
       if shared_classifier then weights else weights ++ [output model] in
     validate weights group_size ;;
     Ok (group_size, weights, shared_classifier))%res in
  match validation with
  | Raise e => (None, Raise e)
  | Ok (group_size, weights, shared_classifier) =>
      let out_file : IO unit :=
        (write_packed (pack_I h MAGIC) ;;
         write_packed (pack_i h version) ;;
         let p := params model in
         hidden_dim <- io_lift (first_w1_rows model) ;;
         let n_kv_heads :=
           match n_kv_heads p with None => n_heads p | Some k => k end in
         let header :=
           pack_is h [dim p; hidden_dim; n_layers p; n_heads p; n_kv_heads;
                      vocab_size p; max_seq_len p] in
         write_packed header ;;
         write_packed (pack_B (Z.b2z shared_classifier)) ;;
         write_packed (pack_i h group_size) ;;
         pos <- tell ;;
         let pad := 256 - pos in
         io_lift (py_assert (0 <=? pad)) ;;
         write (repeat 0 (Z.to_nat pad)) ;;
         io_for (layers model) (fun layer =>
           serialize_fp32 h (data (attention_norm layer))) ;;
         io_for (layers model) (fun layer =>
           serialize_fp32 h (data (ffn_norm layer))) ;;
         serialize_fp32 h (data (norm model)) ;;
         io_for weights (fun w =>
           qse <- io_lift (quantize_q40 h w group_size) ;;
           let '(q, s, err) := qse in
           serialize_int4 q ;;
           serialize_fp32 h s))%io in
      let (f, r) := out_file [] in
      (Some f, r)
  end.

(** ** Entry point *)

(** [model_export(model, filepath, version, dtype)]: the two quantizing
    exports are called with their default [group_size=64]. *)
Definition model_export (h : Host) (model : Transformer) (version : Z)
  : option file * result unit :=
  if version =? 1 then version1_export h model
  else if version =? 2 then version2_export h model 64
  else if version =? 3 then version3_export h model 64
  else (None, Raise ValueError).


(** ** Vocabulary of the statements *)

(** Element [i] of row [g] of a tensor given by its rows. *)
Definition elem {A : Type} (t : list (list A)) (g i : nat) : option A :=
  match nth_error t g with
  | Some row => nth_error row i
  | None => None
  end.

(** Nearest integer, a tie going away from zero: the rounding the
    specification documents. *)
Definition round_half_away (q : Q) : Z :=
  match (q ?= 0)%Q with
  | Lt => Qceiling (q - (1 # 2))
  | _ => Qfloor (q + (1 # 2))
  end.

(** The quantizers work group by group: these are the scale, the quotients,
    the integers, the dequantized values and the error of one group ([M] is
    127 or 7, [post] the clamping of the 4-bit codec or nothing), all in
    float32. *)
Definition group_wmax (row : list f32) : f32 := max_of (map f32_abs row).

Definition group_scale (M : f32) (row : list f32) : f32 :=
  f32_div (group_wmax row) M.

(** [x / scale] for an element [x] of the group [row] *)
Definition group_quotient (M : f32) (row : list f32) (x : f32) : f32 :=
  f32_div x (group_scale M row).

Definition group_quant (M : f32) (row : list f32) : list f32 :=
  map (group_quotient M row) row.

Definition group_ints (h : Host) (M : f32) (post : Z -> Z) (row : list f32)
  : list Z :=
  map (fun x => post (to_int8 h (torch_round x))) (group_quant M row).

Definition group_fp32 (h : Host) (M : f32) (post : Z -> Z) (row : list f32)
  : list f32 :=
  map (fun v => f32_mul (of_int8 v) (group_scale M row))
    (group_ints h M post row).

Definition group_err (h : Host) (M : f32) (post : Z -> Z) (row : list f32)
  : f32 :=
  max_of (map2 (fun x y => f32_abs (f32_sub x y)) (group_fp32 h M post row)
            row).

(** A zero of either sign. *)
Definition f32_is_zero (x : f32) : Prop :=
  match x with
  | Finite q => (q == 0)%Q
  | NegZero => True
  | _ => False
  end.

(** A float within the range of float32: a finite value is below
    [2 ^ 128]. *)
Definition float32_bounded (x : f32) : Prop :=
  f32_finite x = true -> (Qabs (f32_value x) < 2 ^ 128)%Q.

(** The quantized integer of the specification for a quotient
    [x / scale], with the range [[-M, M]]: the quotient rounded by [round],
    clamped. *)
Definition spec_quantize (round : Q -> Z) (M : Z) (quotient : Q) : Z :=
  clamp (- M) M (round quotient).

(** A group in which the arithmetic of the quantizer stays within the
    normal float32 numbers: its elements are finite and its largest
    magnitude [wmax] is such that [wmax / M] is not below [2 ^ -126], the
    smallest normal number. *)
Definition regular_group (M : Z) (row : list f32) : Prop :=
  Forall (fun x => f32_finite x = true) row
  /\ (inject_Z M * 2 ^ (-126) <= f32_value (group_wmax row))%Q.

(** Dequantization as a reader of the file does it, in float32: value [i]
    of the flat integer buffer times the scale of its group
    [i / group_size]. *)
Definition dequantize (ints : list Z) (scales : list f32) (group_size : nat)
  : list f32 :=
  map (fun i =>
         f32_mul (of_int8 (nth i ints 0%Z))
           (nth (i / group_size)%nat scales (Finite 0)))
      (seq 0 (length ints)).

(** The absolute reconstruction error of every element, in float32. *)
Definition reconstruction_errors (ints : list Z) (scales : list f32)
  (group_size : nat) (original : list f32) : list f32 :=
  map2 (fun x y => f32_abs (f32_sub x y))
    (dequantize ints scales group_size) original.

(** [x] is at most [m], in the order in which [torch.max] takes a maximum:
    the order of the numbers and the infinities, with a NaN above
    everything. *)
Definition torch_le (x m : f32) : Prop := m = NaN \/ f32_leb x m = true.

(** [m] is the maximum of [l]. *)
Definition is_maximum (m : f32) (l : list f32) : Prop :=
  In m l /\ Forall (fun x => torch_le x m) l.

(** Element-wise identity of two tensors, the elements compared as numbers
    ([==] on floats: the two zeros are equal, a NaN differs from
    everything). *)
Definition identical (a b : tensor) : Prop :=
  shape a = shape b
  /\ Forall2 (fun x y => f32_eqb x y = true) (data a) (data b).

(** A four-byte field holding the integer [v]. *)
Definition int32_field (h : Host) (v : Z) : list byte :=
  native_bytes h 4 (v mod 2 ^ 32).

(** The header the specification lays out: magic, version, the seven
    parameters, the flag, the group size when there is one, zeros up to
    byte 256. *)
Definition header_layout (h : Host) (version : Z) (fields : list Z)
  (flag : bool) (group_size : option Z) : list byte :=
  let used :=
    int32_field h MAGIC ++ int32_field h version
    ++ flat_map (int32_field h) fields
    ++ [Z.b2z flag]
    ++ match group_size with Some g => int32_field h g | None => [] end in
  used ++ repeat 0 (256 - length used).

(** The seven parameters of the header, in file order. *)
Definition header_fields (model : Transformer) (hidden_dim : Z) : list Z :=
  let p := params model in
  [dim p; hidden_dim; n_layers p; n_heads p;
   match n_kv_heads p with None => n_heads p | Some k => k end;
   vocab_size p; max_seq_len p].

(** The bytes of the three groups of normalization tensors. *)
Definition norms_payload (h : Host) (model : Transformer) : list byte :=
  flat_map (fun l => pack_f h (data (attention_norm l))) (layers model)
  ++ flat_map (fun l => pack_f h (data (ffn_norm l))) (layers model)
  ++ pack_f h (data (norm model)).

(** The heavy tensors in file order: the output projection comes last, and
    only when it is not shared. *)
Definition ordered_heavy (model : Transformer) (shared : bool) : list tensor :=
  [tok_embeddings model]
  ++ map wq (layers model) ++ map wk (layers model)
  ++ map wv (layers model) ++ map wo (layers model)
  ++ map w1 (layers model) ++ map w2 (layers model)
  ++ map w3 (layers model)
  ++ (if shared then [] else [output model]).

(** The bytes of one quantized tensor: its integers, then its scales. *)
Definition quantized_bytes (h : Host) (pack : list Z -> list byte)
  (qse : list (list Z) * list f32 * f32) : list byte :=
  let '(q, s, _) := qse in
  pack_b (pack (flat_int8 q)) ++ pack_f h s.

(** [r] is the largest power of two that divides both [requested] and
    [dimension]. *)
Definition power_of_two (r : Z) : Prop := exists j, 0 <= j /\ r = 2 ^ j.

Definition largest_common_power_of_two (r requested dimension : Z) : Prop :=
  power_of_two r /\ (r | requested) /\ (r | dimension) /\
  forall r', power_of_two r' -> (r' | requested) -> (r' | dimension) -> r' <= r.

(** The part of the two quantizing exports that comes before the file is
    opened: the backoff, the list of heavy tensors, its validation. *)
Definition validation (model : Transformer) (group_size : Z)
  : result (Z * list tensor * bool) :=
  (group_size <- backoff (dim (params model)) group_size ;;
   let weights := heavy_weights model in
   let shared_classifier :=
     torch_equal (tok_embeddings model) (output model) in
   let weights :=
     if shared_classifier then weights else weights ++ [output model] in
   validate weights group_size ;;
   Ok (group_size, weights, shared_classifier))%res.

(** [version2_export] and [version3_export] are the same text up to the
    version number, the quantizer and the serializer of the integers
    ([version2_is_grouped], [version3_is_grouped]). *)
Definition grouped_export (h : Host) (version : Z)
  (quantize : tensor -> Z -> result (list (list Z) * list f32 * f32))
  (serialize : list (list Z) -> IO unit)
  (model : Transformer) (group_size : Z) : option file * result unit :=
  match validation model group_size with
  | Raise e => (None, Raise e)
  | Ok (group_size, weights, shared_classifier) =>
      let out_file : IO unit :=
        (write_packed (pack_I h MAGIC) ;;
         write_packed (pack_i h version) ;;
         hidden_dim <- io_lift (first_w1_rows model) ;;
         write_packed (pack_is h (header_fields model hidden_dim)) ;;
         write_packed (pack_B (Z.b2z shared_classifier)) ;;
         write_packed (pack_i h group_size) ;;
         pos <- tell ;;
         io_lift (py_assert (0 <=? 256 - pos)) ;;
         write (repeat 0 (Z.to_nat (256 - pos))) ;;
         io_for (layers model) (fun layer =>
           serialize_fp32 h (data (attention_norm layer))) ;;
         io_for (layers model) (fun layer =>
           serialize_fp32 h (data (ffn_norm layer))) ;;
         serialize_fp32 h (data (norm model)) ;;
         io_for weights (fun w =>
           qse <- io_lift (quantize w group_size) ;;
           let '(q, s, err) := qse in
           serialize q ;;
           serialize_fp32 h s))%io in
      let (f, r) := out_file [] in
      (Some f, r)
  end.

(** An export of version [version] (with [group_size] requested, for the
    quantizing versions) ended without an exception and left [fs]. *)
Definition exported (h : Host) (model : Transformer) (group_size version : Z)
  (fs : option file) : Prop :=
  (version = 1 /\ version1_export h model = (fs, Ok tt))
  \/ (version = 2 /\ version2_export h model group_size = (fs, Ok tt))
  \/ (version = 3 /\ version3_export h model group_size = (fs, Ok tt)).

(** [payload] is the tensor payload of a file of version [version] that
    holds the heavy tensors [weights], in this order: the norms, then every
    heavy tensor in turn, as float32 in version 1, as its quantized
    integers followed by its scales in versions 2 and 3. *)
Definition payload_of (h : Host) (model : Transformer)
  (group_size version : Z) (weights : list tensor) (payload : list byte)
  : Prop :=
  (version = 1
   /\ payload = norms_payload h model
                ++ flat_map (fun w => pack_f h (data w)) weights)
  \/ (version = 2
      /\ exists gs qs,
           backoff (dim (params model)) group_size = Ok gs
           /\ Forall2 (fun w qse => quantize_q80 h w gs = Ok qse) weights qs
           /\ payload = norms_payload h model
                        ++ flat_map (quantized_bytes h (fun d => d)) qs)
  \/ (version = 3
      /\ exists gs qs,
           backoff (dim (params model)) group_size = Ok gs
           /\ Forall2 (fun w qse => quantize_q40 h w gs = Ok qse) weights qs
           /\ payload = norms_payload h model
                        ++ flat_map (quantized_bytes h (map int4_byte)) qs).

(** The byte offsets of the header in a file [f], and the payload after
    it. *)
Definition laid_out (h : Host) (version : Z) (fields : list Z) (flag : bool)
  (group_size : option Z) (f : file) (payload : list byte) : Prop :=
  firstn 4 f = int32_field h MAGIC
  /\ firstn 4 (skipn 4 f) = int32_field h version
  /\ firstn 28 (skipn 8 f) = flat_map (int32_field h) fields
  /\ firstn 1 (skipn 36 f) = [Z.b2z flag]
  /\ match group_size with
     | Some g => firstn 4 (skipn 37 f) = int32_field h g
                 /\ firstn 215 (skipn 41 f) = repeat 0 215
     | None => firstn 219 (skipn 37 f) = repeat 0 219
     end
  /\ skipn 256 f = payload.


(** IEEE 754 binary32 (24 bits of precision, exponents below 128), from
    the specification of floating-point arithmetic of the standard library:
    the number nearest to [m * 2 ^ e], the operations, and the value of a
    number in the terms of this model. *)
Definition binary32 (m e : Z) : spec_float :=
  binary_normalize 24 128 m e false.

Definition binary32_div : spec_float -> spec_float -> spec_float :=
  SFdiv 24 128.

Definition binary32_mul : spec_float -> spec_float -> spec_float :=
  SFmul 24 128.

Definition binary32_sub : spec_float -> spec_float -> spec_float :=
  SFsub 24 128.

Definition binary32_value (x : spec_float) : f32 :=
  match x with
  | S754_zero s => f32_zero s
  | S754_infinity s => f32_inf s
  | S754_nan => NaN
  | S754_finite s m e =>
      Finite (Qred ((if s then - inject_Z (Zpos m) else inject_Z (Zpos m))
                    * 2 ^ e))
  end.

(** The same value: numbers are compared by their value, the two zeros
    and the special values are told apart. *)
Definition f32_same (x y : f32) : bool :=
  match x, y with
  | Finite a, Finite b => Qeq_bool a b
  | NegZero, NegZero | NaN, NaN | PosInf, PosInf | NegInf, NegInf => true
  | _, _ => false
  end.

(** Operands on which the arithmetic of the model is compared with the
    standard library's: zeros, small integers, subnormal numbers, the
    largest number, powers of two, numbers with a full significand, the
    infinities and NaN. *)
Definition binary32_samples : list spec_float :=
  [binary32 0 0; S754_zero true; binary32 1 0; binary32 2 0; binary32 7 0;
   binary32 127 0; binary32 5 (-1); binary32 (-3) 0; binary32 1 (-149);
   binary32 128 (-149); binary32 3 (-149); binary32 (-1) (-149);
   binary32 16777215 104; binary32 1 127; binary32 1 (-126);
   binary32 8388609 (-140); binary32 12345677 (-30);
   binary32 (-9999999) 3; binary32 1 (-100); binary32 3 100;
   binary32 11184811 (-25); binary32 1 (-75); binary32 13 (-150);
   S754_infinity false; S754_infinity true; S754_nan].

Definition agree_on_samples (f : f32 -> f32 -> f32)
  (g : spec_float -> spec_float -> spec_float) : bool :=
  forallb (fun x =>
    forallb (fun y =>
      f32_same (f (binary32_value x) (binary32_value y))
        (binary32_value (g x y)))
      binary32_samples)
    binary32_samples.

(** ** Sample inputs *)

(** A little-endian machine on which the conversion of a NaN or an
    infinity to int8 gives 0, the conversion of a finite number out of
    range wraps around, and a NaN is written as the quiet NaN
    [0x7FC00000]. *)
Definition little_endian_host : Host :=
  {| big_endian := false; nan_to_int8 := 0; posinf_to_int8 := 0;
     neginf_to_int8 := 0; out_of_range_to_int8 := fun z => z;
     nan_bits := 0x7FC00000 |}.

(** The tensors of the given numbers. *)
Definition vector (l : list Q) : tensor :=
  {| shape := [Z.of_nat (length l)]; data := map Finite l |}.

Definition matrix (rows cols : Z) (l : list Q) : tensor :=
  {| shape := [rows; cols]; data := map Finite l |}.

(** A one-layer model of dimension 2 with a hidden dimension of 2, a
    vocabulary of 2 tokens, and [n_kv_heads] left unset. *)
Definition tiny_block : TransformerBlock :=
  {| attention_norm := vector [1; 1]%Q;
     ffn_norm := vector [2; 2]%Q;
     wq := matrix 2 2 [1; 2; 3; 4]%Q;
     wk := matrix 2 2 [5; 6; 7; 8]%Q;
     wv := matrix 2 2 [0; 0; 1; -1]%Q;
     wo := matrix 2 2 [1; 1; 1; 1]%Q;
     w1 := matrix 2 2 [1; -2; 3; -4]%Q;
     w2 := matrix 2 2 [2; 2; 2; 2]%Q;
     w3 := matrix 2 2 [3; 3; 3; 3]%Q |}.

Definition tiny_params : ModelArgs :=
  {| dim := 2; n_layers := 1; n_heads := 1; n_kv_heads := None;
     vocab_size := 2; max_seq_len := 4 |}.

(** The classifier shares the embedding. *)
Definition tiny_shared : Transformer :=
  {| params := tiny_params;
     tok_embeddings := matrix 2 2 [1; 2; 3; 4]%Q;
     layers := [tiny_block];
     norm := vector [9; 9]%Q;
     output := matrix 2 2 [1; 2; 3; 4]%Q |}.

(** The classifier differs from the embedding in one element. *)
Definition tiny_unshared : Transformer :=
  {| params := tiny_params;
     tok_embeddings := matrix 2 2 [1; 2; 3; 4]%Q;
     layers := [tiny_block];
     norm := vector [9; 9]%Q;
     output := matrix 2 2 [1; 2; 3; 5]%Q |}.

(** The embedding has three elements: not a multiple of the group size 2. *)
Definition tiny_odd : Transformer :=
  {| params := tiny_params;
     tok_embeddings := vector [1; 2; 3]%Q;
     layers := [tiny_block];
     norm := vector [9; 9]%Q;
     output := vector [1; 2; 3]%Q |}.

(** A one-layer model of dimension 6 with a hidden dimension of 16 and a
    vocabulary of 1 token; every tensor holds a multiple of 6 elements. *)
Definition six_block : TransformerBlock :=
  {| attention_norm := vector (repeat 1%Q 6);
     ffn_norm := vector (repeat 1%Q 6);
     wq := matrix 6 6 (repeat 1%Q 36);
     wk := matrix 6 6 (repeat 1%Q 36);
     wv := matrix 6 6 (repeat 1%Q 36);
     wo := matrix 6 6 (repeat 1%Q 36);
     w1 := matrix 16 6 (repeat 1%Q 96);
     w2 := matrix 6 16 (repeat 1%Q 96);
     w3 := matrix 16 6 (repeat 1%Q 96) |}.

Definition six_model : Transformer :=
  {| params := {| dim := 6; n_layers := 1; n_heads := 1;
                  n_kv_heads := Some 1; vocab_size := 1; max_seq_len := 4 |};
     tok_embeddings := matrix 1 6 (repeat 1%Q 6);
     layers := [six_block];
     norm := vector (repeat 1%Q 6);
     output := matrix 1 6 (repeat 1%Q 6) |}.

(** * Properties *)

(** Linear arithmetic with [/] and [mod]. *)
Ltac div_lia := Z.to_euclidean_division_equations; lia.

(** ** Fixed-width integers *)

Lemma wrap8_range (z : Z) : -128 <= wrap8 z <= 127.
Proof.
  unfold wrap8. pose proof (Z.mod_pos_bound (z + 128) 256). lia.
Qed.

Lemma wrap8_small (z : Z) : -128 <= z <= 127 -> wrap8 z = z.
Proof.
  intros Hz. unfold wrap8. rewrite Z.mod_small; lia.
Qed.

Lemma wrap8_idem (z : Z) : wrap8 (wrap8 z) = wrap8 z.
Proof. apply wrap8_small, wrap8_range. Qed.

Lemma length_le_bytes (n : nat) (z : Z) : length (le_bytes n z) = n.
Proof.
  revert z. induction n as [|n IH]; intros z; simpl; [reflexivity|].
  now rewrite IH.
Qed.

Lemma length_native_bytes (h : Host) (n : nat) (z : Z) :
  length (native_bytes h n z) = n.
Proof.
  unfold native_bytes. destruct (big_endian h).
  - rewrite length_rev. apply length_le_bytes.
  - apply length_le_bytes.
Qed.

Lemma length_int32_field (h : Host) (v : Z) : length (int32_field h v) = 4%nat.
Proof. apply length_native_bytes. Qed.

Lemma length_int32_fields (h : Host) (vs : list Z) :
  length (flat_map (int32_field h) vs) = (4 * length vs)%nat.
Proof.
  induction vs as [|v vs IH]; [reflexivity|].
  cbn [flat_map]. rewrite length_app, length_int32_field, IH. simpl. lia.
Qed.

Lemma pack_I_MAGIC (h : Host) : pack_I h MAGIC = Ok (int32_field h MAGIC).
Proof. reflexivity. Qed.

Lemma pack_i_inv (h : Host) (v : Z) (b : list byte) :
  pack_i h v = Ok b -> b = int32_field h v /\ - 2 ^ 31 <= v < 2 ^ 31.
Proof.
  unfold pack_i.
  destruct (- 2 ^ 31 <=? v) eqn:Hlo; destruct (v <? 2 ^ 31) eqn:Hhi;
    cbn [andb]; intros H; inversion H; subst.
  split; [reflexivity|]. apply Z.leb_le in Hlo. apply Z.ltb_lt in Hhi. lia.
Qed.

Lemma pack_i_small (h : Host) (v : Z) :
  - 2 ^ 31 <= v < 2 ^ 31 -> pack_i h v = Ok (int32_field h v).
Proof.
  intros [Hlo Hhi]. unfold pack_i.
  apply Z.leb_le in Hlo. apply Z.ltb_lt in Hhi. now rewrite Hlo, Hhi.
Qed.

Lemma pack_is_inv (h : Host) (vs : list Z) (b : list byte) :
  pack_is h vs = Ok b ->
  b = flat_map (int32_field h) vs
  /\ Forall (fun v => - 2 ^ 31 <= v < 2 ^ 31) vs.
Proof.
  revert b. induction vs as [|v vs IH]; intros b; cbn [pack_is flat_map].
  - intros H; inversion H. split; [reflexivity | constructor].
  - destruct (pack_i h v) as [b1|e] eqn:H1; cbn [rbind]; [|discriminate].
    destruct (pack_is h vs) as [b2|e] eqn:H2; cbn [rbind]; [|discriminate].
    intros H; inversion H; subst.
    apply pack_i_inv in H1 as [-> Hv]. destruct (IH _ eq_refl) as [-> Hvs].
    split; [reflexivity | now constructor].
Qed.

Lemma pack_is_small (h : Host) (vs : list Z) :
  Forall (fun v => - 2 ^ 31 <= v < 2 ^ 31) vs ->
  pack_is h vs = Ok (flat_map (int32_field h) vs).
Proof.
  induction 1 as [|v vs Hv Hr IH]; [reflexivity|].
  cbn [pack_is flat_map]. rewrite (pack_i_small h v Hv), IH. reflexivity.
Qed.

Lemma pack_B_flag (b : bool) : pack_B (Z.b2z b) = Ok [Z.b2z b].
Proof. now destruct b. Qed.

(** The byte [serialize_int4] writes for a 4-bit value: the value's
    two's-complement nibble moved to the high half, to which the arithmetic
    right shift adds -1 when the value is negative. *)
Lemma int4_byte_nibbles (v : Z) :
  -7 <= v <= 7 ->
  int4_byte v mod 256 = 16 * (v mod 16) - (if v <? 0 then 1 else 0).
Proof.
  intros Hv.
  assert (Hc : v = -7 \/ v = -6 \/ v = -5 \/ v = -4 \/ v = -3 \/ v = -2
               \/ v = -1 \/ v = 0 \/ v = 1 \/ v = 2 \/ v = 3 \/ v = 4
               \/ v = 5 \/ v = 6 \/ v = 7) by lia.
  repeat match goal with H : _ \/ _ |- _ => destruct H end;
    subst v; reflexivity.
Qed.

(** ** The serializers *)

Lemma serialize_int4_run (t : list (list Z)) (f : file) :
  serialize_int4 t f
  = (f ++ map (fun v => int4_byte (wrap8 v) mod 256) (concat t), Ok tt).
Proof.
  unfold serialize_int4, write, pack_b, flat_int8.
  now rewrite !map_map.
Qed.

Lemma serialize_int8_run (t : list (list Z)) (f : file) :
  serialize_int8 t f = (f ++ pack_b (flat_int8 t), Ok tt).
Proof. reflexivity. Qed.

(** C1 (the code departs from its description): [serialize_int4] applies its
    shift-and-mask expression to every element on its own, so a tensor of N
    values is written as N bytes, not N/2.  The pair [1; 2] becomes the two
    bytes [0x10; 0x20]; in general the bytes appended are as many as the
    values. *)
Theorem serialize_int4_one_byte_per_value :
  serialize_int4 [[1; 2]] [] = ([16; 32], Ok tt)
  /\ forall (t : list (list Z)) (f : file),
       exists b, serialize_int4 t f = (f ++ b, Ok tt)
                 /\ length b = length (concat t).
Proof.
  split; [reflexivity|].
  intros t f. eexists. split; [apply serialize_int4_run|].
  now rewrite length_map.
Qed.

(** ** Rounding to binary32 *)

(** *** Powers of two *)

Lemma Qpow2_pos (k : Z) : (0 < 2 ^ k)%Q.
Proof. now apply Qpower_0_lt. Qed.

Lemma Qpow2_plus (j k : Z) : (2 ^ (j + k) == 2 ^ j * 2 ^ k)%Q.
Proof. now apply Qpower_plus. Qed.

Lemma Qpow2_succ (k : Z) : (2 ^ (k + 1) == 2 * 2 ^ k)%Q.
Proof. rewrite Qpow2_plus. change (2 ^ 1)%Q with 2%Q. ring. Qed.

Lemma Qpow2_le (j k : Z) : j <= k -> (2 ^ j <= 2 ^ k)%Q.
Proof. intros H. now apply Qpower_le_compat_l. Qed.

Lemma Qpow2_lt (j k : Z) : j < k -> (2 ^ j < 2 ^ k)%Q.
Proof. intros H. now apply Qpower_lt_compat_l. Qed.

Lemma Qpow2_inject (k : Z) : 0 <= k -> (inject_Z (2 ^ k) == 2 ^ k)%Q.
Proof. intros H. now rewrite Zpower_Qpower. Qed.

Lemma inject_Z_nonneg (z : Z) : 0 <= z -> (0 <= inject_Z z)%Q.
Proof. intros H. change 0%Q with (inject_Z 0). now rewrite <- Zle_Qle. Qed.

Lemma Qpow2_cancel (k : Z) : (2 ^ k * 2 ^ (- k) == 1)%Q.
Proof. rewrite <- Qpow2_plus. now rewrite Z.add_opp_diag_r. Qed.

(** *** The exponent of a positive rational *)

Lemma floor_log2_spec (a : Q) :
  (0 < a)%Q -> (2 ^ floor_log2 a <= a)%Q /\ (a < 2 ^ (floor_log2 a + 1))%Q.
Proof.
  intros Ha. unfold floor_log2.
  destruct a as [n d]. assert (Hn : 0 < n).
  { unfold Qlt in Ha. cbn in Ha. lia. }
  cbn [Qnum Qden].
  set (ln := Z.log2 n). set (ld := Z.log2 (Z.pos d)).
  destruct (Z.log2_spec n Hn) as [Hn1 Hn2]. fold ln in Hn1, Hn2.
  destruct (Z.log2_spec (Z.pos d) ltac:(lia)) as [Hd1 Hd2].
  fold ld in Hd1, Hd2.
  assert (Hln : 0 <= ln) by apply Z.log2_nonneg.
  assert (Hld : 0 <= ld) by apply Z.log2_nonneg.
  set (N := inject_Z n). set (D := inject_Z (Z.pos d)).
  set (P := (2 ^ ln)%Q). set (R := (2 ^ ld)%Q).
  assert (HP : (0 < P)%Q) by apply Qpow2_pos.
  assert (HR : (0 < R)%Q) by apply Qpow2_pos.
  assert (HN1 : (P <= N)%Q).
  { unfold P, N. rewrite <- Qpow2_inject by lia. now rewrite <- Zle_Qle. }
  assert (HN2 : (N < 2 * P)%Q).
  { unfold P, N. rewrite <- Qpow2_succ, <- Qpow2_inject by lia.
    rewrite <- Zlt_Qlt. exact Hn2. }
  assert (HD1 : (R <= D)%Q).
  { unfold R, D. rewrite <- Qpow2_inject by lia. now rewrite <- Zle_Qle. }
  assert (HD2 : (D < 2 * R)%Q).
  { unfold R, D. rewrite <- Qpow2_succ, <- Qpow2_inject by lia.
    rewrite <- Zlt_Qlt. exact Hd2. }
  assert (HD : (0 < D)%Q) by (eapply Qlt_le_trans; eassumption).
  assert (Ha' : (n # d == N / D)%Q) by apply Qmake_Qdiv.
  assert (He : forall k, (2 ^ (ln - ld + k) == P / R * 2 ^ k)%Q).
  { intros k. rewrite Qpow2_plus. unfold P, R.
    now rewrite (Qpower_minus 2 ln ld). }
  assert (He0 : (2 ^ (ln - ld) == P / R)%Q).
  { unfold P, R. now rewrite (Qpower_minus 2 ln ld). }
  assert (Hup : (N / D < 2 * (P / R))%Q).
  { apply Qlt_shift_div_r; [exact HD|].
    setoid_replace (2 * (P / R) * D)%Q with (2 * P * (D / R))%Q
      by (field; intros E; rewrite E in HR; now apply Qlt_irrefl in HR).
    assert (H1 : (1 <= D / R)%Q).
    { apply Qle_shift_div_l; [exact HR|]. now rewrite Qmult_1_l. }
    nra. }
  assert (Hlo : (P / R * (1 # 2) < N / D)%Q).
  { apply Qlt_shift_div_l; [exact HD|].
    setoid_replace (P / R * (1 # 2) * D)%Q with (P * (D / (2 * R)))%Q
      by (field; intros E; rewrite E in HR; now apply Qlt_irrefl in HR).
    assert (H1 : (D / (2 * R) < 1)%Q).
    { apply Qlt_shift_div_r; [lra|]. now rewrite Qmult_1_l. }
    assert (H2 : (0 <= D / (2 * R))%Q).
    { apply Qle_shift_div_l; [lra|]. lra. }
    nra. }
  destruct (Qle_bool (2 ^ (ln - ld)) (n # d)) eqn:E.
  - apply Qle_bool_iff in E. split; [exact E|].
    rewrite Ha', (He 1). change (2 ^ 1)%Q with 2%Q. lra.
  - assert (E' : (n # d < 2 ^ (ln - ld))%Q).
    { apply Qnot_le_lt. intros H. apply Qle_bool_iff in H. congruence. }
    replace (ln - ld - 1 + 1) with (ln - ld) by lia.
    split; [|exact E'].
    replace (ln - ld - 1) with (ln - ld + -1) by lia.
    rewrite Ha', (He (-1)). change (2 ^ (-1))%Q with (1 # 2)%Q. lra.
Qed.

Lemma floor_log2_unique (a : Q) (k : Z) :
  (2 ^ k <= a)%Q -> (a < 2 ^ (k + 1))%Q -> floor_log2 a = k.
Proof.
  intros H1 H2.
  assert (Ha : (0 < a)%Q)
    by (eapply Qlt_le_trans; [apply Qpow2_pos | exact H1]).
  destruct (floor_log2_spec a Ha) as [H3 H4].
  assert (Hlt1 : (2 ^ k < 2 ^ (floor_log2 a + 1))%Q)
    by (eapply Qle_lt_trans; eassumption).
  assert (Hlt2 : (2 ^ floor_log2 a < 2 ^ (k + 1))%Q)
    by (eapply Qle_lt_trans; eassumption).
  apply Qpower_lt_compat_l_inv in Hlt1; [|reflexivity].
  apply Qpower_lt_compat_l_inv in Hlt2; [|reflexivity].
  lia.
Qed.

Lemma floor_log2_lt (a : Q) (k : Z) :
  (0 < a)%Q -> (a < 2 ^ k)%Q -> floor_log2 a < k.
Proof.
  intros Ha H. destruct (floor_log2_spec a Ha) as [H1 _].
  assert (Hlt : (2 ^ floor_log2 a < 2 ^ k)%Q)
    by (eapply Qle_lt_trans; eassumption).
  now apply Qpower_lt_compat_l_inv in Hlt.
Qed.

Lemma floor_log2_le (a : Q) (k : Z) :
  (2 ^ k <= a)%Q -> k <= floor_log2 a.
Proof.
  intros H.
  assert (Ha : (0 < a)%Q) by (eapply Qlt_le_trans; [apply Qpow2_pos | exact H]).
  destruct (floor_log2_spec a Ha) as [_ H2].
  assert (Hlt : (2 ^ k < 2 ^ (floor_log2 a + 1))%Q)
    by (eapply Qle_lt_trans; eassumption).
  apply Qpower_lt_compat_l_inv in Hlt; [lia | reflexivity].
Qed.

(** *** Rounding to an integer *)

Lemma round_half_even_error (q : Q) :
  (Qabs (inject_Z (round_half_even q) - q) <= 1 # 2)%Q.
Proof.
  unfold round_half_even.
  pose proof (Qfloor_le q) as Hf. pose proof (Qlt_floor q) as Hc.
  rewrite inject_Z_plus in Hc. change (inject_Z 1) with 1%Q in Hc.
  apply Qabs_Qle_condition.
  assert (Hplus : inject_Z (Qfloor q + 1) = (inject_Z (Qfloor q) + 1)%Q)
    by apply inject_Z_plus.
  destruct (Qcompare_spec (q - inject_Z (Qfloor q)) (1 # 2)) as [He | Hl | Hg].
  - destruct (Z.even (Qfloor q)); [|rewrite Hplus]; split; lra.
  - split; lra.
  - rewrite Hplus. split; lra.
Qed.

Lemma round_half_even_integer (q : Q) (z : Z) :
  (q == inject_Z z)%Q -> round_half_even q = z.
Proof.
  intros Hq. unfold round_half_even.
  assert (Hf : Qfloor q = z) by (rewrite Hq; apply Qfloor_Z).
  rewrite Hf.
  destruct (Qcompare_spec (q - inject_Z z) (1 # 2)) as [He | Hl | Hg];
    [lra | reflexivity | lra].
Qed.

Lemma round_half_even_le (q : Q) (k : Z) :
  (q <= inject_Z k)%Q -> round_half_even q <= k.
Proof.
  intros Hk. unfold round_half_even.
  pose proof (Qfloor_le q) as Hf.
  assert (Hf_hi : Qfloor q <= k).
  { rewrite Zle_Qle. eapply Qle_trans; eassumption. }
  assert (Hup : (inject_Z (Qfloor q) < q)%Q -> Qfloor q + 1 <= k).
  { intros Hlt. assert (Qfloor q < k); [|lia].
    rewrite Zlt_Qlt. eapply Qlt_le_trans; eassumption. }
  destruct (Qcompare_spec (q - inject_Z (Qfloor q)) (1 # 2)) as [He | Hl | Hg].
  - destruct (Z.even (Qfloor q)); [lia|]. apply Hup. lra.
  - lia.
  - apply Hup. lra.
Qed.

Lemma round_half_even_ge (q : Q) (k : Z) :
  (inject_Z k <= q)%Q -> k <= round_half_even q.
Proof.
  intros Hk. unfold round_half_even.
  pose proof (Qlt_floor q) as Hc.
  assert (Hf : k <= Qfloor q).
  { assert (k < Qfloor q + 1); [|lia].
    rewrite Zlt_Qlt. eapply Qle_lt_trans; eassumption. }
  destruct (q - inject_Z (Qfloor q) ?= 1 # 2)%Q;
    [destruct (Z.even (Qfloor q))| |]; lia.
Qed.

Lemma round_half_even_compat (p q : Q) :
  (p == q)%Q -> round_half_even p = round_half_even q.
Proof.
  intros H. unfold round_half_even.
  assert (Hf : Qfloor p = Qfloor q) by now rewrite H.
  rewrite Hf.
  assert (Hc : (p - inject_Z (Qfloor q) ?= 1 # 2)%Q
               = (q - inject_Z (Qfloor q) ?= 1 # 2)%Q) by now rewrite H.
  now rewrite Hc.
Qed.

(** *** The nearest binary32 number *)

(** The significand and the exponent [round32] works with. *)
Lemma round32_significand (a : Q) :
  (0 < a)%Q ->
  let e := Z.max (-126) (floor_log2 a) in
  let m := round_half_even (a * 2 ^ (23 - e)) in
  0 <= m <= 2 ^ 24
  /\ (-126 <= floor_log2 a -> e = floor_log2 a /\ 2 ^ 23 <= m)
  /\ (floor_log2 a < -126 -> e = -126 /\ m <= 2 ^ 23)
  /\ (Qabs (inject_Z m * 2 ^ (e - 23) - a) <= 2 ^ (e - 24))%Q.
Proof.
  intros Ha e m.
  destruct (floor_log2_spec a Ha) as [H1 H2].
  assert (Hp : (0 < 2 ^ (23 - e))%Q) by apply Qpow2_pos.
  assert (Hy0 : (0 <= a * 2 ^ (23 - e))%Q) by nra.
  assert (Hup : forall k, floor_log2 a + 1 <= k ->
                  (a * 2 ^ (23 - e) <= 2 ^ (k + 23 - e))%Q).
  { intros k Hk.
    assert (Hak : (a <= 2 ^ k)%Q).
    { eapply Qle_trans; [apply Qlt_le_weak; exact H2|]. now apply Qpow2_le. }
    replace (k + 23 - e) with (k + (23 - e)) by lia.
    rewrite Qpow2_plus. nra. }
  assert (Hm0 : 0 <= m).
  { apply round_half_even_ge. exact Hy0. }
  split; [split; [exact Hm0|]|split; [|split]].
  - apply round_half_even_le.
    rewrite Qpow2_inject by lia.
    eapply Qle_trans; [apply (Hup (e + 1)); lia|].
    replace (e + 1 + 23 - e) with 24 by lia. apply Qle_refl.
  - intros Hn. assert (He : e = floor_log2 a) by lia.
    split; [exact He|].
    apply round_half_even_ge. rewrite Qpow2_inject by lia.
    assert (H : (2 ^ 23 == 2 ^ e * 2 ^ (23 - e))%Q).
    { rewrite <- Qpow2_plus. now replace (e + (23 - e)) with 23 by lia. }
    rewrite H. rewrite He in *. nra.
  - intros Hs. assert (He : e = -126) by lia.
    split; [exact He|].
    apply round_half_even_le. rewrite Qpow2_inject by lia.
    eapply Qle_trans; [apply (Hup e); lia|].
    replace (e + 23 - e) with 23 by lia. apply Qle_refl.
  - pose proof (round_half_even_error (a * 2 ^ (23 - e))) as Herr.
    fold m in Herr.
    assert (Hq : (0 < 2 ^ (e - 23))%Q) by apply Qpow2_pos.
    assert (Hc : (2 ^ (23 - e) * 2 ^ (e - 23) == 1)%Q).
    { rewrite <- Qpow2_plus. now replace (23 - e + (e - 23)) with 0 by lia. }
    assert (Hh : (2 ^ (e - 24) == (1 # 2) * 2 ^ (e - 23))%Q).
    { replace (e - 24) with (-1 + (e - 23)) by lia.
      rewrite Qpow2_plus. reflexivity. }
    rewrite Hh.
    setoid_replace (inject_Z m * 2 ^ (e - 23) - a)%Q
      with ((inject_Z m - a * 2 ^ (23 - e)) * 2 ^ (e - 23))%Q.
    + rewrite Qabs_Qmult, (Qabs_pos (2 ^ (e - 23))) by lra.
      apply Qmult_le_compat_r; [exact Herr | lra].
    + setoid_replace ((inject_Z m - a * 2 ^ (23 - e)) * 2 ^ (e - 23))%Q
        with (inject_Z m * 2 ^ (e - 23)
              - a * (2 ^ (23 - e) * 2 ^ (e - 23)))%Q by ring.
      rewrite Hc. ring.
Qed.

Lemma round32_unfold (s : bool) (a : Q) :
  (0 < a)%Q ->
  let e := Z.max (-126) (floor_log2 a) in
  let m := round_half_even (a * 2 ^ (23 - e)) in
  round32 s a
  = if 0x7F800000 <=? (e + 126) * 2 ^ 23 + m then f32_inf s
    else if m =? 0 then f32_zero s
    else Finite (Qred (if s then - (inject_Z m * 2 ^ (e - 23))
                       else inject_Z m * 2 ^ (e - 23))).
Proof.
  intros Ha e m. unfold round32.
  destruct (Qeq_bool a 0) eqn:E; [|reflexivity].
  apply Qeq_bool_iff in E. rewrite E in Ha. now apply Qlt_irrefl in Ha.
Qed.

Lemma f32_value_zero (s : bool) : f32_value (f32_zero s) = 0%Q.
Proof. now destruct s. Qed.

Lemma f32_finite_zero (s : bool) : f32_finite (f32_zero s) = true.
Proof. now destruct s. Qed.

Lemma Qabs_signed (s : bool) (v : Q) :
  (0 <= v)%Q -> (Qabs (Qred (if s then - v else v)) == v)%Q.
Proof.
  intros Hv. rewrite Qred_correct. destruct s.
  - rewrite Qabs_opp. now apply Qabs_pos.
  - now apply Qabs_pos.
Qed.

(** A magnitude below a float32 number rounds to a float32 number that is
    not above it. *)
Lemma round32_upper (s : bool) (a : Q) (mB eB : Z) :
  (0 <= a)%Q -> (a <= inject_Z mB * 2 ^ (eB - 23))%Q ->
  2 ^ 23 <= mB < 2 ^ 24 -> -126 <= eB <= 127 ->
  f32_finite (round32 s a) = true
  /\ (Qabs (f32_value (round32 s a)) <= inject_Z mB * 2 ^ (eB - 23))%Q.
Proof.
  intros Ha0 HaB HmB HeB.
  assert (HB0 : (0 <= inject_Z mB * 2 ^ (eB - 23))%Q)
    by (eapply Qle_trans; eassumption).
  destruct (Qlt_le_dec 0 a) as [Ha | Hz].
  2:{ assert (E : Qeq_bool a 0 = true) by (apply Qeq_bool_iff; lra).
      unfold round32. rewrite E, f32_finite_zero, f32_value_zero.
      split; [reflexivity | exact HB0]. }
  rewrite (round32_unfold s a Ha). cbv zeta.
  destruct (round32_significand a Ha) as (Hm & Hn & Hs & _).
  cbv zeta in Hm, Hn, Hs.
  destruct (floor_log2_spec a Ha) as [H1 H2].
  set (e := Z.max (-126) (floor_log2 a)) in *.
  set (m := round_half_even (a * 2 ^ (23 - e))) in *.
  assert (HmBq : (2 ^ 23 <= inject_Z mB)%Q).
  { rewrite <- Qpow2_inject by lia. rewrite <- Zle_Qle. lia. }
  assert (HmBq' : (inject_Z mB < 2 ^ 24)%Q).
  { rewrite <- Qpow2_inject by lia. rewrite <- Zlt_Qlt. lia. }
  assert (HBlt : (inject_Z mB * 2 ^ (eB - 23) < 2 ^ (eB + 1))%Q).
  { replace (eB + 1) with (24 + (eB - 23)) by lia. rewrite Qpow2_plus.
    pose proof (Qpow2_pos (eB - 23)). nra. }
  assert (HBge : (2 ^ eB <= inject_Z mB * 2 ^ (eB - 23))%Q).
  { replace eB with (23 + (eB - 23)) at 1 by lia. rewrite Qpow2_plus.
    pose proof (Qpow2_pos (eB - 23)). nra. }
  assert (Hfl : floor_log2 a <= eB).
  { assert (floor_log2 a < eB + 1); [|lia].
    apply floor_log2_lt; [exact Ha|]. lra. }
  assert (He : e <= eB) by lia.
  assert (Hval : (inject_Z m * 2 ^ (e - 23) <= inject_Z mB * 2 ^ (eB - 23))%Q
                 /\ (e = eB -> m <= mB)).
  { destruct (Z.eq_dec e eB) as [E | E].
    - assert (HmmB : m <= mB).
      { apply round_half_even_le.
        assert (Hc : (2 ^ (eB - 23) * 2 ^ (23 - e) == 1)%Q).
        { rewrite <- Qpow2_plus. rewrite E.
          now replace (eB - 23 + (23 - eB)) with 0 by lia. }
        setoid_replace (inject_Z mB)
          with (inject_Z mB * (2 ^ (eB - 23) * 2 ^ (23 - e)))%Q
          by (rewrite Hc; ring).
        pose proof (Qpow2_pos (23 - e)). nra. }
      split; [|intros _; exact HmmB].
      rewrite E. pose proof (Qpow2_pos (eB - 23)).
      apply Qmult_le_compat_r; [|lra]. now rewrite <- Zle_Qle.
    - split; [|intros E'; contradiction].
      eapply Qle_trans; [|exact HBge].
      assert (Hm24 : (inject_Z m <= 2 ^ 24)%Q).
      { rewrite <- Qpow2_inject by lia. rewrite <- Zle_Qle. lia. }
      assert (Hle : (2 ^ (e + 1) <= 2 ^ eB)%Q) by (apply Qpow2_le; lia).
      eapply Qle_trans; [|exact Hle].
      replace (e + 1) with (24 + (e - 23)) by lia. rewrite Qpow2_plus.
      pose proof (Qpow2_pos (e - 23)). nra. }
  destruct Hval as [Hval HmmB].
  assert (Hno : (0x7F800000 <=? (e + 126) * 2 ^ 23 + m) = false).
  { apply Z.leb_gt. destruct (Z.eq_dec e eB) as [E | E].
    - specialize (HmmB E). nia.
    - nia. }
  rewrite Hno.
  destruct (m =? 0) eqn:Em.
  - rewrite f32_finite_zero, f32_value_zero. split; [reflexivity|].
    exact HB0.
  - split; [reflexivity|]. cbn [f32_value].
    rewrite Qabs_signed; [exact Hval|].
    pose proof (Qpow2_pos (e - 23)).
    assert (0 <= inject_Z m)%Q by (apply inject_Z_nonneg; lia). nra.
Qed.

(** In the range of the normal numbers the rounding has a relative error
    of at most [2 ^ -24]. *)
Lemma round32_lower (s : bool) (a : Q) :
  (2 ^ (-126) <= a)%Q -> (a < 2 ^ 127)%Q ->
  exists v,
    round32 s a = Finite (Qred (if s then - v else v))
    /\ (0 < v)%Q /\ (a * (1 - 2 ^ (-24)) <= v)%Q.
Proof.
  intros Hlo Hhi.
  assert (Ha : (0 < a)%Q)
    by (eapply Qlt_le_trans; [apply (Qpow2_pos (-126)) | exact Hlo]).
  rewrite (round32_unfold s a Ha). cbv zeta.
  destruct (round32_significand a Ha) as (Hm & Hn & _ & Herr).
  cbv zeta in Hm, Hn, Herr.
  destruct (floor_log2_spec a Ha) as [H1 H2].
  assert (Hfl : -126 <= floor_log2 a) by now apply floor_log2_le.
  assert (Hfu : floor_log2 a < 127) by now apply floor_log2_lt.
  destruct (Hn Hfl) as [He Hm23].
  set (e := Z.max (-126) (floor_log2 a)) in *.
  set (m := round_half_even (a * 2 ^ (23 - e))) in *.
  assert (Hno : (0x7F800000 <=? (e + 126) * 2 ^ 23 + m) = false).
  { apply Z.leb_gt. nia. }
  rewrite Hno.
  assert (Em : (m =? 0) = false) by (apply Z.eqb_neq; lia).
  rewrite Em.
  exists (inject_Z m * 2 ^ (e - 23))%Q. split; [reflexivity|].
  pose proof (Qpow2_pos (e - 23)) as Hp.
  assert (Hmq : (2 ^ 23 <= inject_Z m)%Q).
  { rewrite <- Qpow2_inject by lia. now rewrite <- Zle_Qle. }
  split; [pose proof (Qpow2_pos 23); nra|].
  apply Qabs_Qle_condition in Herr as [Herr _].
  assert (Hh : (2 ^ (e - 24) == 2 ^ e * 2 ^ (-24))%Q).
  { replace (e - 24) with (e + -24) by lia. apply Qpow2_plus. }
  rewrite Hh in Herr. rewrite He in *.
  pose proof (Qpow2_pos (-24)). nra.
Qed.

(** A finite result of the rounding is below [2 ^ 128]. *)
Lemma round32_bounded (s : bool) (a : Q) :
  (0 <= a)%Q -> f32_finite (round32 s a) = true ->
  (Qabs (f32_value (round32 s a)) < 2 ^ 128)%Q.
Proof.
  intros Ha0 Hfin.
  destruct (Qlt_le_dec 0 a) as [Ha | Hz].
  2:{ assert (E : Qeq_bool a 0 = true) by (apply Qeq_bool_iff; lra).
      unfold round32. rewrite E, f32_value_zero. apply (Qpow2_pos 128). }
  revert Hfin. rewrite (round32_unfold s a Ha). cbv zeta.
  destruct (round32_significand a Ha) as (Hm & Hn & Hs & _).
  cbv zeta in Hm, Hn, Hs.
  set (e := Z.max (-126) (floor_log2 a)) in *.
  set (m := round_half_even (a * 2 ^ (23 - e))) in *.
  destruct (0x7F800000 <=? (e + 126) * 2 ^ 23 + m) eqn:Hov;
    [now destruct s|].
  apply Z.leb_gt in Hov. intros _.
  destruct (m =? 0) eqn:Em; [rewrite f32_value_zero; apply (Qpow2_pos 128)|].
  cbn [f32_value].
  pose proof (Qpow2_pos (e - 23)) as Hp.
  assert (Hm0 : (0 <= inject_Z m)%Q) by (apply inject_Z_nonneg; lia).
  rewrite Qabs_signed by nra.
  assert (He127 : e <= 127).
  { destruct (Z_le_gt_dec (-126) (floor_log2 a)) as [Hc | Hc].
    - destruct (Hn Hc) as [_ Hm23]. nia.
    - lia. }
  destruct (Z.eq_dec e 127) as [E | E].
  - assert (Hm24 : m < 2 ^ 24) by nia.
    assert (Hmq : (inject_Z m < 2 ^ 24)%Q).
    { rewrite <- Qpow2_inject by lia. now rewrite <- Zlt_Qlt. }
    replace 128 with (24 + (e - 23)) by lia. rewrite Qpow2_plus. nra.
  - assert (Hmq : (inject_Z m <= 2 ^ 24)%Q).
    { rewrite <- Qpow2_inject by lia. rewrite <- Zle_Qle. lia. }
    assert (Hle : (2 ^ (e + 1) < 2 ^ 128)%Q) by (apply Qpow2_lt; lia).
    eapply Qle_lt_trans; [|exact Hle].
    replace (e + 1) with (24 + (e - 23)) by lia. rewrite Qpow2_plus. nra.
Qed.

(** *** The encoding of a rounded value *)

Lemma floor_log2_compat (p q : Q) :
  (0 < p)%Q -> (p == q)%Q -> floor_log2 p = floor_log2 q.
Proof.
  intros Hp E. assert (Hq : (0 < q)%Q) by now rewrite <- E.
  destruct (floor_log2_spec q Hq) as [H1 H2].
  apply floor_log2_unique; now rewrite E.
Qed.

Lemma Qabs_eq_0 (q : Q) : (Qabs q == 0)%Q -> (q == 0)%Q.
Proof. apply Qabs_case; intros; lra. Qed.

Lemma Qabs_pos_lt (q : Q) : ~ (q == 0)%Q -> (0 < Qabs q)%Q.
Proof.
  intros Hq. pose proof (Qabs_nonneg q).
  destruct (Qeq_dec (Qabs q) 0) as [E | E]; [|lra].
  now apply Qabs_eq_0 in E.
Qed.

Lemma Qnegative_spec (q : Q) :
  (Qnegative q = true <-> (q < 0)%Q) /\ (Qnegative q = false <-> (0 <= q)%Q).
Proof.
  unfold Qnegative.
  destruct (Qcompare_spec q 0) as [H | H | H];
    repeat split; intros; try discriminate; try reflexivity; try lra.
Qed.

Lemma binary32_bits_unfold (q : Q) :
  ~ (q == 0)%Q ->
  let a := Qabs q in
  let e := Z.max (-126) (floor_log2 a) in
  let m := round_half_even (a * 2 ^ (23 - e)) in
  binary32_bits q
  = (if Qnegative q then 2 ^ 31 else 0)
    + Z.min ((e + 126) * 2 ^ 23 + m) 0x7F800000.
Proof.
  intros Hq a e m. unfold binary32_bits. fold a.
  destruct (Qeq_bool a 0) eqn:E.
  - apply Qeq_bool_iff in E. exfalso. apply Hq. now apply Qabs_eq_0.
  - unfold Qnegative. fold e m. now destruct (q ?= 0)%Q.
Qed.

(** The bits of a rounded value are the bits of the value: writing a
    tensor converts it to float32 once. *)
Lemma f32_bits_round32 (h : Host) (q : Q) :
  f32_bits h (round32 (Qnegative q) (Qabs q)) = binary32_bits q.
Proof.
  destruct (Qeq_dec q 0) as [Hz | Hnz].
  { assert (E : Qeq_bool (Qabs q) 0 = true).
    { apply Qeq_bool_iff. rewrite Hz. reflexivity. }
    unfold round32, binary32_bits. rewrite E.
    destruct (Qnegative_spec q) as [_ [_ Hn]]. rewrite Hn by lra.
    reflexivity. }
  assert (Ha : (0 < Qabs q)%Q) by now apply Qabs_pos_lt.
  rewrite (binary32_bits_unfold q Hnz), (round32_unfold _ _ Ha). cbv zeta.
  destruct (round32_significand _ Ha) as (Hm & Hn & Hs & _).
  cbv zeta in Hm, Hn, Hs.
  set (a := Qabs q) in *.
  set (e := Z.max (-126) (floor_log2 a)) in *.
  set (m := round_half_even (a * 2 ^ (23 - e))) in *.
  set (s := Qnegative q).
  assert (Hsum : 0 <= (e + 126) * 2 ^ 23 + m) by nia.
  destruct (0x7F800000 <=? (e + 126) * 2 ^ 23 + m) eqn:Hov.
  { apply Z.leb_le in Hov. rewrite Z.min_r by exact Hov.
    now destruct s. }
  apply Z.leb_gt in Hov. rewrite Z.min_l by lia.
  destruct (m =? 0) eqn:Em.
  { apply Z.eqb_eq in Em.
    assert (He : e = -126).
    { destruct (Z_le_gt_dec (-126) (floor_log2 a)) as [Hc | Hc];
        [destruct (Hn Hc); lia | lia]. }
    rewrite Em, He. now destruct s. }
  apply Z.eqb_neq in Em. cbn [f32_bits].
  set (v := (inject_Z m * 2 ^ (e - 23))%Q).
  assert (Hv : (0 < v)%Q).
  { unfold v. pose proof (Qpow2_pos (e - 23)).
    assert (1 <= inject_Z m)%Q
      by (change 1%Q with (inject_Z 1); rewrite <- Zle_Qle; lia).
    nra. }
  set (v' := Qred (if s then - v else v)).
  assert (Hv' : (v' == (if s then - v else v))%Q) by apply Qred_correct.
  assert (Hnz' : ~ (v' == 0)%Q) by (rewrite Hv'; destruct s; lra).
  assert (Habs : (Qabs v' == v)%Q) by (apply Qabs_signed; lra).
  assert (Hsign : Qnegative v' = s).
  { destruct (Qnegative_spec v') as [[_ H1] [_ H2]].
    destruct s; [apply H1 | apply H2]; rewrite Hv'; lra. }
  rewrite (binary32_bits_unfold v' Hnz'). cbv zeta. rewrite Hsign.
  f_equal.
  assert (Hfl : floor_log2 (Qabs v') = floor_log2 v).
  { apply floor_log2_compat; [rewrite Habs; exact Hv | exact Habs]. }
  rewrite Hfl.
  assert (Hrhe : forall k,
             round_half_even (Qabs v' * 2 ^ (23 - k))
             = round_half_even (v * 2 ^ (23 - k))).
  { intros k. apply round_half_even_compat. now rewrite Habs. }
  rewrite Hrhe.
  assert (Hscale : forall k j, (inject_Z k * 2 ^ (j - 23) * 2 ^ (23 - j)
                                == inject_Z k)%Q).
  { intros k j. rewrite <- Qmult_assoc, <- Qpow2_plus.
    replace (j - 23 + (23 - j)) with 0 by lia. apply Qmult_1_r. }
  assert (Hmq : (inject_Z m <= 2 ^ 24)%Q).
  { rewrite <- Qpow2_inject by lia. rewrite <- Zle_Qle. lia. }
  pose proof (Qpow2_pos (e - 23)) as Hp.
  destruct (Z.eq_dec m (2 ^ 24)) as [E24 | E24].
  - (* the significand rounded up to the next power of two *)
    assert (Hve : (v == 2 ^ (e + 1))%Q).
    { unfold v. rewrite E24, Qpow2_inject by lia.
      rewrite <- Qpow2_plus. now replace (24 + (e - 23)) with (e + 1) by lia. }
    assert (Hf : floor_log2 v = e + 1).
    { apply floor_log2_unique; rewrite Hve; [apply Qle_refl|].
      apply Qpow2_lt. lia. }
    rewrite Hf, Z.max_r by lia.
    assert (Hm' : round_half_even (v * 2 ^ (23 - (e + 1))) = 2 ^ 23).
    { apply round_half_even_integer. rewrite Hve, <- Qpow2_plus.
      replace (e + 1 + (23 - (e + 1))) with 23 by lia.
      now rewrite Qpow2_inject by lia. }
    rewrite Hm', E24. lia.
  - destruct (Z_le_gt_dec (2 ^ 23) m) as [Hnorm | Hsub].
    + (* a normal number *)
      assert (Hmq' : (2 ^ 23 <= inject_Z m)%Q).
      { rewrite <- Qpow2_inject by lia. now rewrite <- Zle_Qle. }
      assert (Hmq'' : (inject_Z m < 2 ^ 24)%Q).
      { rewrite <- Qpow2_inject by lia. rewrite <- Zlt_Qlt. lia. }
      assert (Hf : floor_log2 v = e).
      { apply floor_log2_unique; unfold v.
        - replace e with (23 + (e - 23)) at 1 by lia. rewrite Qpow2_plus.
          nra.
        - replace (e + 1) with (24 + (e - 23)) by lia. rewrite Qpow2_plus.
          nra. }
      rewrite Hf, Z.max_r by lia.
      assert (Hm' : round_half_even (v * 2 ^ (23 - e)) = m).
      { apply round_half_even_integer. unfold v. apply Hscale. }
      rewrite Hm'. lia.
    + (* a subnormal number *)
      assert (He : e = -126).
      { destruct (Z_le_gt_dec (-126) (floor_log2 a)) as [Hc | Hc];
          [destruct (Hn Hc); lia | lia]. }
      assert (Hmq' : (inject_Z m < 2 ^ 23)%Q).
      { rewrite <- Qpow2_inject by lia. rewrite <- Zlt_Qlt. lia. }
      assert (Hf : floor_log2 v < -126).
      { apply floor_log2_lt; [exact Hv|]. unfold v.
        replace (-126) with (23 + (e - 23)) by lia. rewrite Qpow2_plus.
        nra. }
      rewrite Z.max_l by lia. fold e. rewrite <- He.
      assert (Hm' : round_half_even (v * 2 ^ (23 - e)) = m).
      { apply round_half_even_integer. unfold v. apply Hscale. }
      rewrite Hm'. lia.
Qed.

Lemma f32_bits_to_float32 (h : Host) (x : f32) :
  f32_bits h (to_float32 x) = f32_bits h x.
Proof.
  destruct x; try reflexivity. cbn [to_float32 f32_bits].
  apply f32_bits_round32.
Qed.

Lemma pack_f_float (h : Host) (d : list f32) :
  pack_f h (map to_float32 d) = pack_f h d.
Proof.
  unfold pack_f. induction d as [|x d IH]; [reflexivity|].
  cbn [map flat_map]. now rewrite IH, f32_bits_to_float32.
Qed.

(** ** Lists and maxima *)

Lemma map2_map_r {A B C : Type} (f : A -> B -> C) (g : A -> B) (l : list A) :
  map2 f l (map g l) = map (fun a => f a (g a)) l.
Proof.
  induction l as [|a l IH]; [reflexivity|]. cbn [map map2]. now rewrite IH.
Qed.

Lemma map2_map_l {A B C : Type} (f : B -> A -> C) (g : A -> B) (l : list A) :
  map2 f (map g l) l = map (fun a => f (g a) a) l.
Proof.
  induction l as [|a l IH]; [reflexivity|]. cbn [map map2]. now rewrite IH.
Qed.

Lemma map2_map_map {A B C D : Type} (f : B -> C -> D) (g : A -> B)
  (k : A -> C) (l : list A) :
  map2 f (map g l) (map k l) = map (fun a => f (g a) (k a)) l.
Proof.
  induction l as [|a l IH]; [reflexivity|]. cbn [map map2]. now rewrite IH.
Qed.

Lemma map2_app {A B C : Type} (f : A -> B -> C) (l1 l1' : list A)
  (l2 l2' : list B) :
  length l1 = length l2 ->
  map2 f (l1 ++ l1') (l2 ++ l2') = map2 f l1 l2 ++ map2 f l1' l2'.
Proof.
  revert l2. induction l1 as [|a l1 IH]; intros [|b l2] Hlen;
    try discriminate; [reflexivity|].
  cbn [app map2]. f_equal. apply IH. now inversion Hlen.
Qed.

Lemma length_map2 {A B C : Type} (f : A -> B -> C) (l1 : list A) (l2 : list B) :
  length l1 = length l2 -> length (map2 f l1 l2) = length l1.
Proof.
  revert l2. induction l1 as [|a l1 IH]; intros [|b l2] Hlen;
    try discriminate; [reflexivity|].
  cbn [map2 length]. f_equal. apply IH. now inversion Hlen.
Qed.
(** ** The order of the floats *)

Lemma f32_leb_finite (x y : f32) :
  f32_finite x = true -> f32_finite y = true ->
  (f32_leb x y = true <-> (f32_value x <= f32_value y)%Q).
Proof.
  intros Hx Hy. unfold f32_leb.
  assert (E : f32_compare x y = Some (f32_value x ?= f32_value y)%Q)
    by (destruct x, y; try discriminate; reflexivity).
  rewrite E.
  destruct (Qcompare_spec (f32_value x) (f32_value y)) as [H | H | H];
    split; intros; try discriminate; try reflexivity; lra.
Qed.

Lemma f32_eqb_finite (x y : f32) :
  f32_finite x = true -> f32_finite y = true ->
  (f32_eqb x y = true <-> (f32_value x == f32_value y)%Q).
Proof.
  intros Hx Hy. unfold f32_eqb.
  assert (E : f32_compare x y = Some (f32_value x ?= f32_value y)%Q)
    by (destruct x, y; try discriminate; reflexivity).
  rewrite E.
  destruct (Qcompare_spec (f32_value x) (f32_value y)) as [H | H | H];
    split; intros; try discriminate; try reflexivity; lra.
Qed.

(** The rank of a float that is not a NaN on the extended line. *)
Lemma f32_leb_cases (x y : f32) :
  f32_leb x y = true <->
  match x, y with
  | NaN, _ | _, NaN => False
  | NegInf, _ | _, PosInf => True
  | _, NegInf | PosInf, _ => False
  | _, _ => (f32_value x <= f32_value y)%Q
  end.
Proof.
  destruct x, y; unfold f32_leb, f32_compare; cbn [f32_value];
    cbv beta iota;
    first
      [ split; [discriminate | contradiction]
      | split; [intros _; exact I | reflexivity]
      | match goal with
        | |- context [(?a ?= ?b)%Q] =>
            destruct (Qcompare_spec a b);
            split; intros; try discriminate; try reflexivity; lra
        end ].
Qed.

Lemma torch_le_refl (x : f32) : torch_le x x.
Proof.
  unfold torch_le. destruct x; try (now left); right;
    apply f32_leb_cases; cbv beta iota; try exact I; apply Qle_refl.
Qed.

Lemma torch_le_trans (x y z : f32) :
  torch_le x y -> torch_le y z -> torch_le x z.
Proof.
  unfold torch_le. intros [-> | Hxy] [-> | Hyz]; try (now left).
  right. apply f32_leb_cases in Hxy, Hyz. apply f32_leb_cases.
  destruct x, y, z; cbv beta iota in *; cbn [f32_value] in *;
      try contradiction; try exact I; lra.
Qed.

Lemma f32_max_cases (x y : f32) : f32_max x y = x \/ f32_max x y = y.
Proof.
  unfold f32_max. destruct (f32_compare x y) as [[| |]|] eqn:E; auto.
  destruct x, y; try discriminate; auto.
Qed.

Lemma f32_max_ge (x y : f32) :
  torch_le x (f32_max x y) /\ torch_le y (f32_max x y).
Proof.
  unfold f32_max, torch_le.
  destruct (f32_compare x y) as [[| |]|] eqn:E; [| | |now split; left].
  - split; right; apply f32_leb_cases;
      destruct x, y; cbv beta iota in *; cbn [f32_value] in *;
      try discriminate; try exact I; try apply Qle_refl;
      inversion E as [E']; apply Qeq_alt in E'; lra.
  - split; right; apply f32_leb_cases;
      destruct x, y; cbv beta iota in *; cbn [f32_value] in *;
      try discriminate; try exact I; try apply Qle_refl;
      inversion E as [E']; apply Qlt_alt in E'; lra.
  - split; right; apply f32_leb_cases;
      destruct x, y; cbv beta iota in *; cbn [f32_value] in *;
      try discriminate; try exact I; try apply Qle_refl;
      inversion E as [E']; apply Qgt_alt in E'; lra.
Qed.

Lemma fold_f32_max_ge (l : list f32) (a : f32) :
  torch_le a (fold_left f32_max l a)
  /\ Forall (fun x => torch_le x (fold_left f32_max l a)) l.
Proof.
  revert a. induction l as [|x l IH]; intros a; cbn [fold_left].
  - split; [apply torch_le_refl | constructor].
  - destruct (IH (f32_max a x)) as [H1 H2].
    destruct (f32_max_ge a x) as [Ha Hx].
    split; [|constructor; [|exact H2]];
      eapply torch_le_trans; eassumption.
Qed.

Lemma fold_f32_max_In (l : list f32) (a : f32) :
  fold_left f32_max l a = a \/ In (fold_left f32_max l a) l.
Proof.
  revert a. induction l as [|x l IH]; intros a; cbn [fold_left]; [now left|].
  destruct (IH (f32_max a x)) as [H | H].
  - rewrite H. destruct (f32_max_cases a x) as [E | E]; rewrite E;
      [now left | right; now left].
  - right. now right.
Qed.

Lemma max_of_ge (l : list f32) : Forall (fun x => torch_le x (max_of l)) l.
Proof.
  destruct l as [|a l]; [constructor|]. cbn [max_of].
  destruct (fold_f32_max_ge l a). now constructor.
Qed.

Lemma max_of_In (l : list f32) : l <> [] -> In (max_of l) l.
Proof.
  destruct l as [|a l]; [congruence|]. intros _. cbn [max_of].
  destruct (fold_f32_max_In l a) as [H | H]; [rewrite H; now left | now right].
Qed.

Lemma max_of_is_maximum (l : list f32) : l <> [] -> is_maximum (max_of l) l.
Proof.
  intros Hl. split; [now apply max_of_In | apply max_of_ge].
Qed.

Lemma max_of_all (l : list f32) (c : f32) :
  Forall (fun x => x = c) l -> l <> [] -> max_of l = c.
Proof.
  intros Hl Hne. pose proof (max_of_In l Hne) as H.
  rewrite Forall_forall in Hl. now apply Hl.
Qed.

(** The maximum of the maxima of the rows is the maximum of all elements. *)
Lemma max_of_rows (ll : list (list f32)) :
  ll <> [] -> Forall (fun row => row <> []) ll ->
  is_maximum (max_of (map max_of ll)) (concat ll).
Proof.
  intros Hne Hrows. split.
  - assert (Hin : In (max_of (map max_of ll)) (map max_of ll)).
    { apply max_of_In. destruct ll; [congruence | discriminate]. }
    apply in_map_iff in Hin as (row & Hrow & Hin). rewrite <- Hrow.
    apply in_concat. exists row. split; [exact Hin|].
    apply max_of_In. rewrite Forall_forall in Hrows. now apply Hrows.
  - apply Forall_forall. intros x Hx.
    apply in_concat in Hx as (row & Hrow & Hx).
    pose proof (max_of_ge row) as H1. rewrite Forall_forall in H1.
    pose proof (max_of_ge (map max_of ll)) as H2. rewrite Forall_forall in H2.
    eapply torch_le_trans; [now apply H1|]. apply H2. now apply in_map.
Qed.

(** Two maxima of a list are equal as numbers. *)
Lemma is_maximum_unique (m m' : f32) (l : list f32) :
  is_maximum m l -> is_maximum m' l ->
  m = NaN /\ m' = NaN \/ f32_eqb m m' = true.
Proof.
  intros [Hx Hm] [Hx' Hm']. rewrite Forall_forall in Hm, Hm'.
  pose proof (Hm' _ Hx) as H1. pose proof (Hm _ Hx') as H2.
  unfold torch_le in H1, H2.
  destruct H1 as [-> | H1], H2 as [-> | H2].
  - now left.
  - exfalso. apply f32_leb_cases in H2. exact H2.
  - exfalso. apply f32_leb_cases in H1. exact H1.
  - right. apply f32_leb_cases in H1, H2. unfold f32_eqb, f32_compare.
    destruct m, m'; cbv beta iota in *; cbn [f32_value] in *;
      try contradiction; try reflexivity;
      match goal with
      | |- context [(?a ?= ?b)%Q] =>
          destruct (Qcompare_spec a b); try reflexivity; lra
      end.
Qed.

(** ** The quantizers, group by group *)

Lemma q80_locals_groups (h : Host) (w : list (list f32)) :
  l_scale (q80_locals h w) = map (group_scale (Finite 127)) w
  /\ l_quant (q80_locals h w) = map (group_quant (Finite 127)) w
  /\ l_intval (q80_locals h w)
     = map (group_ints h (Finite 127) (fun v => v)) w
  /\ l_fp32valr (q80_locals h w)
     = map (group_fp32 h (Finite 127) (fun v => v)) w
  /\ l_err (q80_locals h w) = map (group_err h (Finite 127) (fun v => v)) w
  /\ l_maxerr (q80_locals h w)
     = max_of (map (group_err h (Finite 127) (fun v => v)) w).
Proof.
  unfold q80_locals; cbn [l_scale l_quant l_intval l_fp32valr l_err l_maxerr].
  set (M := Finite 127).
  assert (Hs : div_scalar (max_dim1 (t_abs w)) M = map (group_scale M) w).
  { unfold div_scalar, max_dim1, t_abs. now rewrite !map_map. }
  assert (Hq : div_rows w (div_scalar (max_dim1 (t_abs w)) M)
               = map (group_quant M) w).
  { rewrite Hs. unfold div_rows. now rewrite map2_map_r. }
  assert (Hi : round_to_int8 h (div_rows w (div_scalar (max_dim1 (t_abs w)) M))
               = map (group_ints h M (fun v => v)) w).
  { rewrite Hq. unfold round_to_int8. now rewrite map_map. }
  assert (Hf : mul_rows
                 (round_to_int8 h
                    (div_rows w (div_scalar (max_dim1 (t_abs w)) M)))
                 (div_scalar (max_dim1 (t_abs w)) M)
               = map (group_fp32 h M (fun v => v)) w).
  { rewrite Hi, Hs. unfold mul_rows.
    now rewrite map2_map_map. }
  assert (He : max_dim1
                 (abs_diff
                    (mul_rows
                       (round_to_int8 h
                          (div_rows w (div_scalar (max_dim1 (t_abs w)) M)))
                       (div_scalar (max_dim1 (t_abs w)) M)) w)
               = map (group_err h M (fun v => v)) w).
  { rewrite Hf. unfold max_dim1, abs_diff.
    rewrite map2_map_l, map_map. reflexivity. }
  rewrite He. repeat split; assumption.
Qed.

Lemma q40_locals_groups (h : Host) (w : list (list f32)) :
  l_scale (q40_locals h w) = map (group_scale (Finite 7)) w
  /\ l_quant (q40_locals h w) = map (group_quant (Finite 7)) w
  /\ l_intval (q40_locals h w)
     = map (group_ints h (Finite 7) (clamp (-7) 7)) w
  /\ l_fp32valr (q40_locals h w)
     = map (group_fp32 h (Finite 7) (clamp (-7) 7)) w
  /\ l_err (q40_locals h w) = map (group_err h (Finite 7) (clamp (-7) 7)) w
  /\ l_maxerr (q40_locals h w)
     = max_of (map (group_err h (Finite 7) (clamp (-7) 7)) w).
Proof.
  unfold q40_locals; cbn [l_scale l_quant l_intval l_fp32valr l_err l_maxerr].
  set (M := Finite 7).
  assert (Hs : div_scalar (max_dim1 (t_abs w)) M = map (group_scale M) w).
  { unfold div_scalar, max_dim1, t_abs. now rewrite !map_map. }
  assert (Hq : div_rows w (div_scalar (max_dim1 (t_abs w)) M)
               = map (group_quant M) w).
  { rewrite Hs. unfold div_rows. now rewrite map2_map_r. }
  assert (Hi : map (map (clamp (-7) 7))
                 (round_to_int8 h
                    (div_rows w (div_scalar (max_dim1 (t_abs w)) M)))
               = map (group_ints h M (clamp (-7) 7)) w).
  { rewrite Hq. unfold round_to_int8. rewrite !map_map.
    apply map_ext. intros row. unfold group_ints. now rewrite map_map. }
  assert (Hf : mul_rows
                 (map (map (clamp (-7) 7))
                    (round_to_int8 h
                       (div_rows w (div_scalar (max_dim1 (t_abs w)) M))))
                 (div_scalar (max_dim1 (t_abs w)) M)
               = map (group_fp32 h M (clamp (-7) 7)) w).
  { rewrite Hi, Hs. unfold mul_rows.
    now rewrite map2_map_map. }
  assert (He : max_dim1
                 (abs_diff
                    (mul_rows
                       (map (map (clamp (-7) 7))
                          (round_to_int8 h
                             (div_rows w
                                (div_scalar (max_dim1 (t_abs w)) M))))
                       (div_scalar (max_dim1 (t_abs w)) M)) w)
               = map (group_err h M (clamp (-7) 7)) w).
  { rewrite Hf. unfold max_dim1, abs_diff.
    rewrite map2_map_l, map_map. reflexivity. }
  rewrite He. repeat split; assumption.
Qed.

(** ** Rounding and range *)

Lemma Qtrunc_inject_Z (z : Z) : Qtrunc (inject_Z z) = z.
Proof. unfold Qtrunc. cbn [Qnum Qden inject_Z]. apply Z.quot_1_r. Qed.

Lemma clamp_small (M v : Z) : - M <= v <= M -> clamp (- M) M v = v.
Proof. intros Hv. unfold clamp. lia. Qed.

Lemma clamp_range (M v : Z) : 0 <= M -> - M <= clamp (- M) M v <= M.
Proof. intros HM. unfold clamp. lia. Qed.

Lemma round32_compat (s : bool) (p q : Q) :
  (0 <= q)%Q -> (p == q)%Q -> round32 s p = round32 s q.
Proof.
  intros Hq0 E. unfold round32.
  assert (E0 : Qeq_bool p 0 = Qeq_bool q 0).
  { destruct (Qeq_bool q 0) eqn:Hq.
    - apply Qeq_bool_iff. apply Qeq_bool_iff in Hq. now rewrite E.
    - destruct (Qeq_bool p 0) eqn:Hp; [|reflexivity].
      apply Qeq_bool_iff in Hp. rewrite E in Hp.
      apply Qeq_bool_iff in Hp. congruence. }
  rewrite E0. destruct (Qeq_bool q 0) eqn:Hq; [reflexivity|].
  assert (Hpos : (0 < q)%Q).
  { destruct (Qeq_dec q 0) as [H | H]; [|lra].
    apply Qeq_bool_iff in H. congruence. }
  assert (Hf : floor_log2 p = floor_log2 q).
  { apply floor_log2_compat; [now rewrite E | exact E]. }
  rewrite Hf.
  set (e := Z.max (-126) (floor_log2 q)).
  assert (Hm : round_half_even (p * 2 ^ (23 - e))
               = round_half_even (q * 2 ^ (23 - e)))
    by (apply round_half_even_compat; now rewrite E).
  now rewrite Hm.
Qed.

Lemma round_half_even_near (q : Q) (k : Z) :
  (Qabs q < inject_Z k + (1 # 2))%Q -> - k <= round_half_even q <= k.
Proof.
  intros Hq. pose proof (round_half_even_error q) as Herr.
  apply Qabs_Qle_condition in Herr as [H1 H2].
  assert (Hq' : (- (inject_Z k + (1 # 2)) < q)%Q
                /\ (q < inject_Z k + (1 # 2))%Q).
  { revert Hq. apply Qabs_case; intros; split; lra. }
  destruct Hq' as [H3 H4].
  assert (Hlt : round_half_even q < k + 1).
  { rewrite Zlt_Qlt, inject_Z_plus. change (inject_Z 1) with 1%Q. lra. }
  assert (Hgt : - (k + 1) < round_half_even q).
  { rewrite Zlt_Qlt, inject_Z_opp, inject_Z_plus.
    change (inject_Z 1) with 1%Q. lra. }
  lia.
Qed.

(** A finite float whose nearest integer int8 holds converts to it. *)
Lemma to_int8_round_finite (h : Host) (x : f32) :
  f32_finite x = true ->
  -128 <= round_half_even (f32_value x) <= 127 ->
  to_int8 h (torch_round x) = round_half_even (f32_value x).
Proof.
  intros Hx Hr. destruct x as [q| | | |]; try discriminate.
  - cbn [f32_value torch_round] in *.
    destruct (round_half_even q =? 0) eqn:E.
    + apply Z.eqb_eq in E. rewrite E.
      now destruct (Qnegative q).
    + cbn [to_int8]. rewrite Qtrunc_inject_Z.
      destruct (-128 <=? round_half_even q) eqn:E1;
        destruct (round_half_even q <=? 127) eqn:E2; cbn [andb];
        try reflexivity; lia.
  - reflexivity.
Qed.

Lemma to_int8_range (h : Host) (x : f32) : -128 <= to_int8 h x <= 127.
Proof.
  destruct x; cbn [to_int8]; try apply wrap8_range; [|lia].
  destruct (-128 <=? Qtrunc q) eqn:E1; destruct (Qtrunc q <=? 127) eqn:E2;
    cbn [andb]; try apply wrap8_range. lia.
Qed.

(** The division of a finite float by a positive finite one. *)
Lemma f32_div_positive (x : f32) (sv : Q) :
  f32_finite x = true -> (0 < sv)%Q ->
  f32_div x (Finite sv)
  = if Qeq_bool (f32_value x) 0 then f32_zero (f32_negative x)
    else round32 (f32_negative x) (Qabs (f32_value x) / sv).
Proof.
  intros Hx Hs. unfold f32_div.
  assert (Hn : f32_negative (Finite sv) = false).
  { cbn. apply Qnegative_spec. lra. }
  assert (Hm : f32_magnitude (Finite sv) = MFinite (Qabs sv)).
  { cbn. destruct (Qeq_bool sv 0) eqn:E; [|reflexivity].
    apply Qeq_bool_iff in E. lra. }
  rewrite Hn, Hm, xorb_false_r.
  destruct x as [q| | | |]; try discriminate; cbn [f32_magnitude f32_value].
  - destruct (Qeq_bool q 0); [reflexivity|].
    apply round32_compat.
    + apply Qle_shift_div_l; [exact Hs|]. rewrite Qmult_0_l.
      apply Qabs_nonneg.
    + now rewrite (Qabs_pos sv) by lra.
  - reflexivity.
Qed.

Lemma to_float32_bounded (x : f32) : float32_bounded (to_float32 x).
Proof.
  unfold float32_bounded. destruct x as [q| | | |]; cbn [to_float32];
    try discriminate.
  - apply round32_bounded. apply Qabs_nonneg.
  - intros _. apply (Qpow2_pos 128).
Qed.

Lemma f32_abs_finite (x : f32) :
  f32_finite x = true ->
  f32_finite (f32_abs x) = true
  /\ (f32_value (f32_abs x) == Qabs (f32_value x))%Q.
Proof.
  destruct x; try discriminate; intros _; split; reflexivity.
Qed.

(** The largest magnitude of a group of finite floats. *)
Lemma group_wmax_finite (row : list f32) :
  row <> [] -> Forall (fun x => f32_finite x = true) row ->
  f32_finite (group_wmax row) = true
  /\ (exists x0, In x0 row
                 /\ (f32_value (group_wmax row) == Qabs (f32_value x0))%Q)
  /\ Forall (fun x => (Qabs (f32_value x) <= f32_value (group_wmax row))%Q)
       row.
Proof.
  intros Hne Hfin. unfold group_wmax. rewrite Forall_forall in Hfin.
  assert (Hin : In (max_of (map f32_abs row)) (map f32_abs row)).
  { apply max_of_In. destruct row; [congruence | discriminate]. }
  apply in_map_iff in Hin as (x0 & E & Hx0).
  destruct (f32_abs_finite x0 (Hfin _ Hx0)) as [F0 V0].
  rewrite <- E. split; [exact F0|]. split; [now exists x0|].
  apply Forall_forall. intros x Hx.
  pose proof (max_of_ge (map f32_abs row)) as Hge.
  rewrite Forall_forall in Hge.
  specialize (Hge (f32_abs x) (in_map _ _ _ Hx)). rewrite <- E in Hge.
  destruct (f32_abs_finite x (Hfin _ Hx)) as [F V].
  destruct Hge as [Hnan | Hle];
    [rewrite Hnan in F0; discriminate|].
  apply (f32_leb_finite _ _ F F0) in Hle. now rewrite <- V.
Qed.

(** The scale of a regular group is a positive number, at most one part in
    [2 ^ 24] below [wmax / M]. *)
Lemma group_scale_regular (M : Z) (row : list f32) :
  2 <= M <= 127 -> row <> [] -> Forall float32_bounded row ->
  regular_group M row ->
  exists sv,
    group_scale (Finite (inject_Z M)) row = Finite sv
    /\ (0 < sv)%Q
    /\ (f32_value (group_wmax row) / inject_Z M * (1 - 2 ^ (-24)) <= sv)%Q.
Proof.
  intros HM Hne Hb [Hfin Hreg].
  destruct (group_wmax_finite row Hne Hfin) as (Fw & (x0 & Hx0 & Vw) & _).
  rewrite Forall_forall in Hb, Hfin.
  pose proof (Hb _ Hx0 (Hfin _ Hx0)) as Hb0. rewrite <- Vw in Hb0.
  set (wv := f32_value (group_wmax row)) in *.
  assert (HMq : (2 <= inject_Z M)%Q)
    by (change 2%Q with (inject_Z 2); rewrite <- Zle_Qle; lia).
  assert (Hp126 : (0 < 2 ^ (-126))%Q) by apply Qpow2_pos.
  assert (Hwv : (0 < wv)%Q) by nra.
  assert (Hlo : (2 ^ (-126) <= wv / inject_Z M)%Q).
  { apply Qle_shift_div_l; [lra|]. lra. }
  assert (Hhi : (wv / inject_Z M < 2 ^ 127)%Q).
  { apply Qlt_shift_div_r; [lra|].
    assert (H128 : (2 ^ 128 == 2 ^ 127 * 2)%Q) by reflexivity.
    pose proof (Qpow2_pos 127). nra. }
  destruct (round32_lower false _ Hlo Hhi) as (v & Hr & Hv & Hrel).
  exists (Qred v). split; [|split].
  - unfold group_scale. fold wv.
    assert (Hw : exists q, group_wmax row = Finite q /\ (q == wv)%Q).
    { unfold wv. destruct (group_wmax row) as [q| | | |] eqn:E;
        try discriminate.
      - exists q. split; reflexivity. }
    destruct Hw as (q & Eq & Hq). rewrite Eq.
    assert (HMpos : (0 < inject_Z M)%Q) by lra.
    rewrite (f32_div_positive (Finite q) (inject_Z M) eq_refl HMpos).
    cbn [f32_value f32_negative].
    assert (Hq0 : Qeq_bool q 0 = false).
    { destruct (Qeq_bool q 0) eqn:E0; [|reflexivity].
      apply Qeq_bool_iff in E0. lra. }
    assert (Hqn : Qnegative q = false) by (apply Qnegative_spec; lra).
    rewrite Hq0, Hqn, <- Hr.
    apply round32_compat.
    + apply Qle_shift_div_l; [lra|]. lra.
    + now rewrite (Qabs_pos q), Hq by lra.
  - now rewrite Qred_correct.
  - now rewrite Qred_correct.
Qed.

(** In a regular group every quotient [x / scale] is a finite float of
    magnitude at most [M + 1/4]: it rounds to an integer of [[-M, M]],
    which the conversion to int8 and the clamp leave as it is. *)
Lemma group_quotient_regular (M : Z) (row : list f32) (x : f32) :
  M = 127 \/ M = 7 -> Forall float32_bounded row ->
  regular_group M row -> In x row ->
  f32_finite (group_quotient (Finite (inject_Z M)) row x) = true
  /\ (Qabs (f32_value (group_quotient (Finite (inject_Z M)) row x))
      <= inject_Z M + (1 # 4))%Q.
Proof.
  intros HM Hb Hreg Hx.
  assert (Hne : row <> []) by (intros ->; contradiction).
  assert (HM' : 2 <= M <= 127) by lia.
  destruct (group_scale_regular M row HM' Hne Hb Hreg)
    as (sv & Hs & Hsv & Hrel).
  destruct Hreg as [Hfin Hreg].
  destruct (group_wmax_finite row Hne Hfin) as (_ & _ & Hall).
  rewrite Forall_forall in Hfin, Hall.
  pose proof (Hfin _ Hx) as Fx. pose proof (Hall _ Hx) as Hxw.
  set (wv := f32_value (group_wmax row)) in *.
  unfold group_quotient. rewrite Hs, (f32_div_positive x sv Fx Hsv).
  pose proof (Qabs_nonneg (f32_value x)) as Habs.
  assert (HB : (0 <= inject_Z M + (1 # 4))%Q)
    by (destruct HM as [-> | ->]; vm_compute; discriminate).
  destruct (Qeq_bool (f32_value x) 0).
  { rewrite f32_finite_zero, f32_value_zero. split; [reflexivity|].
    exact HB. }
  assert (Hquot : (Qabs (f32_value x) / sv <= inject_Z M + (1 # 4))%Q).
  { apply Qle_shift_div_r; [exact Hsv|].
    eapply Qle_trans; [exact Hxw|].
    assert (Hc : (wv == inject_Z M * (wv / inject_Z M))%Q).
    { field. destruct HM as [-> | ->]; discriminate. }
    set (c := (wv / inject_Z M)%Q) in *.
    assert (Hc0 : (0 <= c)%Q).
    { assert (Hp : (0 < 2 ^ (-126))%Q) by apply Qpow2_pos.
      assert (HMp : (0 < inject_Z M)%Q)
        by (destruct HM as [-> | ->]; reflexivity).
      unfold c. apply Qle_shift_div_l; [exact HMp|]. nra. }
    rewrite Hc.
    assert (Hu : (inject_Z M
                  <= (inject_Z M + (1 # 4)) * (1 - 2 ^ (-24)))%Q)
      by (destruct HM as [-> | ->]; vm_compute; discriminate).
    nra. }
  assert (Hq0 : (0 <= Qabs (f32_value x) / sv)%Q).
  { apply Qle_shift_div_l; [exact Hsv|]. lra. }
  destruct HM as [-> | ->].
  - destruct (round32_upper (f32_negative x) _ 16678912 6 Hq0) as [F V];
      [eapply Qle_trans; [exact Hquot|]; vm_compute; discriminate
      | lia | lia |].
    split; [exact F|].
    eapply Qle_trans; [exact V|]. vm_compute. discriminate.
  - destruct (round32_upper (f32_negative x) _ 15204352 2 Hq0) as [F V];
      [eapply Qle_trans; [exact Hquot|]; vm_compute; discriminate
      | lia | lia |].
    split; [exact F|].
    eapply Qle_trans; [exact V|]. vm_compute. discriminate.
Qed.

Lemma group_ints_nth (h : Host) (M : f32) (post : Z -> Z) (row : list f32)
  (i : nat) (x : f32) :
  nth_error row i = Some x ->
  nth_error (group_ints h M post row) i
  = Some (post (to_int8 h (torch_round (group_quotient M row x)))).
Proof.
  intros Hi. unfold group_ints, group_quant. rewrite map_map.
  now rewrite (map_nth_error _ _ _ Hi).
Qed.

(** The integer a quantizer produces for an element of a regular group. *)
Lemma group_ints_regular (h : Host) (M : Z) (post : Z -> Z)
  (row : list f32) (i : nat) (x : f32) :
  M = 127 \/ M = 7 -> (forall v, - M <= v <= M -> post v = v) ->
  Forall float32_bounded row -> regular_group M row ->
  nth_error row i = Some x ->
  let quotient := group_quotient (Finite (inject_Z M)) row x in
  f32_finite quotient = true
  /\ nth_error (group_ints h (Finite (inject_Z M)) post row) i
     = Some (round_half_even (f32_value quotient))
  /\ - M <= round_half_even (f32_value quotient) <= M.
Proof.
  intros HM Hpost Hb Hreg Hi quotient.
  destruct (group_quotient_regular M row x HM Hb Hreg
              (nth_error_In _ _ Hi)) as [Hfin Hq].
  fold quotient in Hfin, Hq.
  assert (Hr : - M <= round_half_even (f32_value quotient) <= M).
  { apply round_half_even_near. lra. }
  split; [exact Hfin|]. split; [|exact Hr].
  rewrite (group_ints_nth h _ post row i x Hi). fold quotient.
  rewrite (to_int8_round_finite h quotient Hfin) by lia.
  now rewrite Hpost.
Qed.

(** ** A group of zeros *)

Lemma f32_is_zero_value (x : f32) :
  f32_is_zero x -> f32_finite x = true /\ (f32_value x == 0)%Q.
Proof. destruct x; try contradiction; intros H; split; easy. Qed.

Lemma group_wmax_zero (row : list f32) :
  Forall f32_is_zero row ->
  exists z, group_wmax row = Finite z /\ (z == 0)%Q.
Proof.
  intros Hz. unfold group_wmax. destruct row as [|x row].
  { exists 0%Q. split; reflexivity. }
  assert (Hin : In (max_of (map f32_abs (x :: row))) (map f32_abs (x :: row)))
    by (apply max_of_In; discriminate).
  apply in_map_iff in Hin as (x0 & E & Hx0).
  rewrite Forall_forall in Hz. specialize (Hz _ Hx0).
  rewrite <- E. destruct x0 as [q| | | |]; try contradiction.
  - exists (Qabs q). split; [reflexivity|]. cbn in Hz. now rewrite Hz.
  - exists 0%Q. split; reflexivity.
Qed.

Lemma group_scale_zero (M : Q) (row : list f32) :
  (0 < M)%Q -> Forall f32_is_zero row -> group_scale (Finite M) row = Finite 0.
Proof.
  intros HM Hz. unfold group_scale.
  destruct (group_wmax_zero row Hz) as (z & -> & Ez).
  rewrite (f32_div_positive (Finite z) M eq_refl HM). cbn [f32_value].
  assert (E : Qeq_bool z 0 = true) by now apply Qeq_bool_iff.
  assert (N : f32_negative (Finite z) = false)
    by (cbn; apply Qnegative_spec; lra).
  now rewrite E, N.
Qed.

Lemma f32_div_zero_zero (x : f32) :
  f32_is_zero x -> f32_div x (Finite 0) = NaN.
Proof.
  destruct x as [q| | | |]; try contradiction; [|reflexivity].
  cbn. intros Hq. unfold f32_div. cbn [f32_magnitude].
  apply Qeq_bool_iff in Hq. now rewrite Hq.
Qed.

Lemma group_quant_zero (M : Q) (row : list f32) :
  (0 < M)%Q -> Forall f32_is_zero row ->
  group_quant (Finite M) row = repeat NaN (length row).
Proof.
  intros HM Hz. unfold group_quant, group_quotient.
  rewrite (group_scale_zero M row HM Hz).
  induction Hz as [|x l Hx Hl IH]; [reflexivity|].
  cbn [map length repeat]. f_equal; [|exact IH].
  now apply f32_div_zero_zero.
Qed.

Lemma group_ints_zero (h : Host) (M : Q) (post : Z -> Z) (row : list f32) :
  (0 < M)%Q -> Forall f32_is_zero row ->
  group_ints h (Finite M) post row
  = repeat (post (wrap8 (nan_to_int8 h))) (length row).
Proof.
  intros HM Hz. unfold group_ints. rewrite (group_quant_zero M row HM Hz).
  induction (length row) as [|n IH]; [reflexivity|].
  cbn [repeat map]. now rewrite IH.
Qed.

Lemma f32_mul_zero (c : Z) :
  exists s, f32_mul (of_int8 c) (Finite 0) = f32_zero s.
Proof.
  unfold f32_mul, of_int8. cbn [f32_magnitude].
  destruct (Qeq_bool (inject_Z c) 0); eexists; reflexivity.
Qed.

Lemma f32_sub_zero_zero (s : bool) (x : f32) :
  f32_is_zero x -> f32_abs (f32_sub (f32_zero s) x) = Finite 0.
Proof.
  intros Hx. destruct (f32_is_zero_value x Hx) as [_ Hv].
  assert (Hm : f32_magnitude x = MZero).
  { destruct x as [q| | | |]; try contradiction; [|reflexivity].
    cbn in *. apply Qeq_bool_iff in Hx. now rewrite Hx. }
  assert (Hs : f32_magnitude (f32_zero s) = MZero) by now destruct s.
  unfold f32_sub. rewrite Hm, Hs, f32_value_zero.
  assert (E : Qeq_bool (0 - f32_value x) 0 = true)
    by (apply Qeq_bool_iff; lra).
  rewrite E.
  now destruct (f32_negative (f32_zero s) && negb (f32_negative x))%bool.
Qed.

Lemma group_err_zero (h : Host) (M : Q) (post : Z -> Z) (row : list f32) :
  (0 < M)%Q -> Forall f32_is_zero row ->
  group_err h (Finite M) post row = Finite 0.
Proof.
  intros HM Hz. unfold group_err, group_fp32.
  rewrite (group_scale_zero M row HM Hz), (group_ints_zero h M post row HM Hz).
  destruct (f32_mul_zero (post (wrap8 (nan_to_int8 h)))) as [s Hs].
  destruct row as [|x row]; [reflexivity|].
  apply max_of_all; [|discriminate].
  induction Hz as [|y l Hy Hl IH]; [constructor|].
  cbn [length repeat map map2]. constructor; [|exact IH].
  rewrite Hs. now apply f32_sub_zero_zero.
Qed.

(** C2 (as amended; [q80_locals h w] and [q40_locals h w] are the values
    the quantizers compute for the reshaped tensor [w]): for a group of
    zeros (of either sign), with either codec, the scale is 0
    and the group adds 0 to the error aggregate; no exception is raised, but
    the division [w / scale] is carried out unguarded and gives NaN for
    every element, and each quantized value is what the conversion of that
    NaN to int8 gives (clamped by the 4-bit codec): 0 on a machine on which
    the conversion gives 0. *)
Theorem zero_group_quantization (h : Host) (w : list (list f32)) (g : nat)
  (row : list f32) :
  nth_error w g = Some row ->
  Forall f32_is_zero row ->
  (exists s e,
      nth_error (l_scale (q80_locals h w)) g = Some s /\ s = Finite 0
      /\ nth_error (l_err (q80_locals h w)) g = Some e /\ e = Finite 0)
  /\ nth_error (l_quant (q80_locals h w)) g = Some (repeat NaN (length row))
  /\ nth_error (l_intval (q80_locals h w)) g
     = Some (repeat (wrap8 (nan_to_int8 h)) (length row))
  /\ (exists s e,
         nth_error (l_scale (q40_locals h w)) g = Some s /\ s = Finite 0
         /\ nth_error (l_err (q40_locals h w)) g = Some e /\ e = Finite 0)
  /\ nth_error (l_quant (q40_locals h w)) g = Some (repeat NaN (length row))
  /\ nth_error (l_intval (q40_locals h w)) g
     = Some (repeat (clamp (-7) 7 (wrap8 (nan_to_int8 h))) (length row))
  /\ (nan_to_int8 h = 0 ->
      nth_error (l_intval (q80_locals h w)) g = Some (repeat 0 (length row))
      /\ nth_error (l_intval (q40_locals h w)) g
         = Some (repeat 0 (length row))).
Proof.
  intros Hg Hz.
  destruct (q80_locals_groups h w) as (S8 & Q8 & I8 & _ & E8 & _).
  destruct (q40_locals_groups h w) as (S4 & Q4 & I4 & _ & E4 & _).
  rewrite S8, Q8, I8, E8, S4, Q4, I4, E4.
  rewrite !(map_nth_error _ _ _ Hg).
  assert (H127 : (0 < 127)%Q) by reflexivity.
  assert (H7 : (0 < 7)%Q) by reflexivity.
  rewrite (group_quant_zero 127 row H127 Hz), (group_quant_zero 7 row H7 Hz).
  rewrite (group_ints_zero h 127 _ row H127 Hz).
  rewrite (group_ints_zero h 7 _ row H7 Hz).
  assert (Hse : forall M post, (0 < M)%Q -> exists s e,
             Some (group_scale (Finite M) row) = Some s /\ s = Finite 0
             /\ Some (group_err h (Finite M) post row) = Some e
             /\ e = Finite 0).
  { intros M post HM. eexists _, _.
    split; [reflexivity|]. split; [now apply group_scale_zero|].
    split; [reflexivity|]. now apply group_err_zero. }
  split; [now apply Hse|]. split; [reflexivity|]. split; [reflexivity|].
  split; [now apply Hse|]. split; [reflexivity|]. split; [reflexivity|].
  intros ->. split; reflexivity.
Qed.

Lemma zero_group_quantization_witness :
  nth_error [[Finite 0; Finite 0]] 0 = Some [Finite 0; Finite 0]
  /\ Forall f32_is_zero [Finite 0; Finite 0]
  /\ nth_error (l_intval (q80_locals little_endian_host
                            [[Finite 0; Finite 0]])) 0
     = Some [0; 0]
  /\ nth_error (l_intval (q40_locals little_endian_host
                            [[Finite 0; Finite 0]])) 0
     = Some [0; 0].
Proof.
  assert (H1 : nth_error [[Finite 0; Finite 0]] 0
               = Some [Finite 0; Finite 0]) by reflexivity.
  assert (H2 : Forall f32_is_zero [Finite 0; Finite 0])
    by (repeat constructor).
  split; [exact H1|]. split; [exact H2|].
  pose proof (zero_group_quantization little_endian_host
                [[Finite 0; Finite 0]] 0 [Finite 0; Finite 0] H1 H2) as H.
  exact (proj2 (proj2 (proj2 (proj2 (proj2 (proj2 H))))) eq_refl).
Defined.

(** C2 (counterexample): on the group [0; 0] both codecs compute
    [w / scale] as [0 / 0]: every quotient is NaN, where the description
    has no NaN produced.  ([[0; 0]] is the tensor [0; 0] reshaped into
    groups of 2.) *)
Lemma zero_group_division_gives_nan :
  reshape (float (vector [0; 0]%Q)) 2 = Ok [[Finite 0; Finite 0]]
  /\ l_quant (q80_locals little_endian_host [[Finite 0; Finite 0]])
     = [[NaN; NaN]]
  /\ l_quant (q40_locals little_endian_host [[Finite 0; Finite 0]])
     = [[NaN; NaN]].
Proof. repeat split; reflexivity. Qed.

(** ** Reshaping into groups *)

Lemma length_float (t : tensor) : length (float t) = length (data t).
Proof. apply length_map. Qed.

Lemma float_bounded (t : tensor) : Forall float32_bounded (float t).
Proof.
  unfold float. apply Forall_map, Forall_forall. intros x _.
  apply to_float32_bounded.
Qed.

Lemma rows_of_facts (n g : nat) (d : list f32) :
  length d = (n * g)%nat ->
  length (rows_of n g d) = n
  /\ Forall (fun row => length row = g) (rows_of n g d)
  /\ concat (rows_of n g d) = d.
Proof.
  revert d. induction n as [|n IH]; intros d Hlen; cbn [rows_of concat].
  - destruct d; [|discriminate]. repeat split. constructor.
  - assert (Hf : length (firstn g d) = g) by (rewrite length_firstn; lia).
    assert (Hs : length (skipn g d) = (n * g)%nat)
      by (rewrite length_skipn; lia).
    destruct (IH _ Hs) as (H1 & H2 & H3).
    cbn [length]. rewrite H1, H3. repeat split.
    + now constructor.
    + apply firstn_skipn.
Qed.

Lemma reshape_inv (d : list f32) (group_size : Z) (w : list (list f32)) :
  reshape d group_size = Ok w ->
  0 < group_size
  /\ Z.of_nat (length d) mod group_size = 0
  /\ w <> []
  /\ Forall (fun row => length row = Z.to_nat group_size) w
  /\ concat w = d.
Proof.
  unfold reshape. set (n := Z.of_nat (length d)).
  destruct (group_size <=? 0) eqn:Hg; [discriminate|].
  destruct (n =? 0) eqn:Hn; [discriminate|].
  destruct (n mod group_size =? 0) eqn:Hm; [|discriminate].
  cbn [orb negb]. intros H; inversion H as [Hw]; clear H.
  apply Z.leb_gt in Hg. apply Z.eqb_neq in Hn. apply Z.eqb_eq in Hm.
  assert (Hdiv : n = group_size * (n / group_size))
    by (rewrite (Z.div_mod n group_size) at 1; lia).
  assert (Hq : 0 < n / group_size) by (subst n; nia).
  destruct (rows_of_facts (Z.to_nat (n / group_size)) (Z.to_nat group_size) d)
    as (H1 & H2 & H3).
  { rewrite <- Z2Nat.inj_mul by lia. subst n.
    rewrite <- (Nat2Z.id (length d)) at 1. f_equal. lia. }
  repeat split; try assumption.
  intros E. rewrite E in H1. cbn [length] in H1. lia.
Qed.

Lemma reshape_total (d : list f32) (group_size : Z) :
  0 < group_size -> d <> [] -> Z.of_nat (length d) mod group_size = 0 ->
  exists w, reshape d group_size = Ok w.
Proof.
  intros Hg Hd Hm. unfold reshape.
  destruct (group_size <=? 0) eqn:E1; [apply Z.leb_le in E1; lia|].
  destruct (Z.of_nat (length d) =? 0) eqn:E2.
  { apply Z.eqb_eq in E2. destruct d; [congruence | discriminate]. }
  rewrite Hm. cbn [orb negb Z.eqb]. eexists. reflexivity.
Qed.

(** A tensor with a positive number of elements that a positive group size
    divides is reshaped into non-empty groups of that size. *)
Lemma reshape_float (t : tensor) (group_size : Z) :
  0 < group_size -> 0 < numel t -> numel t mod group_size = 0 ->
  exists w, reshape (float t) group_size = Ok w.
Proof.
  intros Hg Hn Hm. unfold numel in Hn, Hm. apply reshape_total.
  - exact Hg.
  - intros E. apply (f_equal (@length f32)) in E.
    rewrite length_float in E. cbn [length] in E. lia.
  - now rewrite length_float.
Qed.

Lemma quantize_q80_reshaped (h : Host) (t : tensor) (group_size : Z)
  (w : list (list f32)) :
  reshape (float t) group_size = Ok w ->
  quantize_q80 h t group_size
  = Ok (l_intval (q80_locals h w), l_scale (q80_locals h w),
        l_maxerr (q80_locals h w)).
Proof.
  intros Hw. destruct (reshape_inv _ _ _ Hw) as (Hg & Hm & _).
  rewrite length_float in Hm.
  unfold quantize_q80, assert_divisible, numel.
  destruct (group_size =? 0) eqn:E; [apply Z.eqb_eq in E; lia|].
  rewrite Hm. cbn [Z.eqb py_assert rbind]. rewrite Hw. reflexivity.
Qed.

Lemma quantize_q40_reshaped (h : Host) (t : tensor) (group_size : Z)
  (w : list (list f32)) :
  reshape (float t) group_size = Ok w ->
  quantize_q40 h t group_size
  = Ok (l_intval (q40_locals h w), l_scale (q40_locals h w),
        l_maxerr (q40_locals h w)).
Proof.
  intros Hw. destruct (reshape_inv _ _ _ Hw) as (Hg & Hm & _).
  rewrite length_float in Hm.
  unfold quantize_q40, assert_divisible, numel.
  destruct (group_size =? 0) eqn:E; [apply Z.eqb_eq in E; lia|].
  rewrite Hm. cbn [Z.eqb py_assert rbind]. rewrite Hw. reflexivity.
Qed.

(** The groups of a converted tensor hold floats of the float32 range. *)
Lemma reshape_float_bounded (t : tensor) (group_size : Z)
  (w : list (list f32)) (row : list f32) :
  reshape (float t) group_size = Ok w -> In row w ->
  Forall float32_bounded row.
Proof.
  intros Hw Hrow. destruct (reshape_inv _ _ _ Hw) as (_ & _ & _ & _ & Hcat).
  pose proof (float_bounded t) as Hb. rewrite <- Hcat in Hb.
  rewrite Forall_forall in Hb. apply Forall_forall. intros x Hx.
  apply Hb. apply in_concat. now exists row.
Qed.

(** ** Rounding of the quotients *)

Lemma group_ints_clamped (h : Host) (M : f32) (row : list f32) :
  Forall (fun v => -7 <= v <= 7) (group_ints h M (clamp (-7) 7) row).
Proof.
  unfold group_ints. apply Forall_map, Forall_forall. intros x _.
  apply (clamp_range 7). lia.
Qed.

Lemma group_ints_int8 (h : Host) (M : f32) (row : list f32) :
  Forall (fun v => -128 <= v <= 127) (group_ints h M (fun v => v) row).
Proof.
  unfold group_ints. apply Forall_map, Forall_forall. intros x _.
  apply to_int8_range.
Qed.

(** C3 (as amended).  Every quantized integer is the quotient
    [x / scale], with [scale = wmax / M] and both divisions in float32,
    rounded to the nearest integer with a tie going to the even neighbour
    ([torch.round]), converted to int8 and, by the 4-bit codec, clamped to
    [[-7, 7]].  Every output of the 4-bit codec lies in [[-7, 7]], every
    output of the 8-bit codec in the range of int8.  In a group whose
    elements are finite and whose [wmax / M] is not below the smallest
    normal float32 number, the quotient is a finite float, the integer is
    its rounding to even (the conversion and the clamp change nothing) and
    it lies in [[-M, M]] (M = 127 for the 8-bit codec, 7 for the 4-bit
    codec). *)
Theorem quantized_value_rounds_to_even (h : Host) (t : tensor)
  (group_size : Z) (w : list (list f32)) (g i : nat) (row : list f32)
  (x : f32) :
  reshape (float t) group_size = Ok w ->
  nth_error w g = Some row ->
  nth_error row i = Some x ->
  exists q8 s8 e8 q4 s4 e4,
    quantize_q80 h t group_size = Ok (q8, s8, e8)
    /\ quantize_q40 h t group_size = Ok (q4, s4, e4)
    /\ Forall (Forall (fun v => -128 <= v <= 127)) q8
    /\ Forall (Forall (fun v => -7 <= v <= 7)) q4
    /\ elem q8 g i
       = Some (to_int8 h (torch_round (group_quotient (Finite 127) row x)))
    /\ elem q4 g i
       = Some (clamp (-7) 7
                 (to_int8 h (torch_round (group_quotient (Finite 7) row x))))
    /\ (regular_group 127 row ->
        let quotient := f32_value (group_quotient (Finite 127) row x) in
        f32_finite (group_quotient (Finite 127) row x) = true
        /\ elem q8 g i = Some (spec_quantize round_half_even 127 quotient)
        /\ spec_quantize round_half_even 127 quotient
           = round_half_even quotient
        /\ -127 <= round_half_even quotient <= 127)
    /\ (regular_group 7 row ->
        let quotient := f32_value (group_quotient (Finite 7) row x) in
        f32_finite (group_quotient (Finite 7) row x) = true
        /\ elem q4 g i = Some (spec_quantize round_half_even 7 quotient)
        /\ spec_quantize round_half_even 7 quotient
           = round_half_even quotient
        /\ -7 <= round_half_even quotient <= 7).
Proof.
  intros Hw Hg Hi.
  pose proof (reshape_float_bounded t group_size w row Hw
                (nth_error_In _ _ Hg)) as Hb.
  destruct (q80_locals_groups h w) as (_ & _ & I8 & _).
  destruct (q40_locals_groups h w) as (_ & _ & I4 & _).
  eexists _, _, _, _, _, _.
  split; [exact (quantize_q80_reshaped h t group_size w Hw)|].
  split; [exact (quantize_q40_reshaped h t group_size w Hw)|].
  rewrite I8, I4. unfold elem. rewrite !(map_nth_error _ _ _ Hg).
  split; [apply Forall_map, Forall_forall; intros r _;
          apply group_ints_int8|].
  split; [apply Forall_map, Forall_forall; intros r _;
          apply group_ints_clamped|].
  split; [exact (group_ints_nth h _ _ row i x Hi)|].
  split; [exact (group_ints_nth h _ _ row i x Hi)|].
  split.
  - intros Hreg. cbv zeta.
    destruct (group_ints_regular h 127 (fun v => v) row i x) as (F & N & R);
      [now left | auto | exact Hb | exact Hreg | exact Hi |].
    change (Finite (inject_Z 127)) with (Finite 127) in F, N, R.
    set (quotient := f32_value (group_quotient (Finite 127) row x)) in *.
    assert (S : spec_quantize round_half_even 127 quotient
                = round_half_even quotient) by now apply (clamp_small 127).
    split; [exact F|]. split; [now rewrite S|]. split; [exact S | exact R].
  - intros Hreg. cbv zeta.
    destruct (group_ints_regular h 7 (clamp (-7) 7) row i x) as (F & N & R);
      [now right | intros v Hv; now apply (clamp_small 7) | exact Hb
      | exact Hreg | exact Hi |].
    change (Finite (inject_Z 7)) with (Finite 7) in F, N, R.
    set (quotient := f32_value (group_quotient (Finite 7) row x)) in *.
    assert (S : spec_quantize round_half_even 7 quotient
                = round_half_even quotient) by now apply (clamp_small 7).
    split; [exact F|]. split; [now rewrite S|]. split; [exact S | exact R].
Qed.

Lemma quantized_value_rounds_to_even_witness :
  reshape (float (vector [127; 5 # 2]%Q)) 2
  = Ok [[Finite 127; Finite (5 # 2)]]
  /\ nth_error [[Finite 127; Finite (5 # 2)]] 0
     = Some [Finite 127; Finite (5 # 2)]
  /\ nth_error [Finite 127; Finite (5 # 2)] 1 = Some (Finite (5 # 2))
  /\ exists q8 s8 e8,
       quantize_q80 little_endian_host (vector [127; 5 # 2]%Q) 2
       = Ok (q8, s8, e8)
       /\ elem q8 0 1
          = Some (to_int8 little_endian_host
                    (torch_round
                       (group_quotient (Finite 127)
                          [Finite 127; Finite (5 # 2)] (Finite (5 # 2))))).
Proof.
  assert (H1 : reshape (float (vector [127; 5 # 2]%Q)) 2
               = Ok [[Finite 127; Finite (5 # 2)]]) by reflexivity.
  assert (H2 : nth_error [[Finite 127; Finite (5 # 2)]] 0
               = Some [Finite 127; Finite (5 # 2)]) by reflexivity.
  assert (H3 : nth_error [Finite 127; Finite (5 # 2)] 1
               = Some (Finite (5 # 2))) by reflexivity.
  repeat (split; [assumption|]).
  destruct (quantized_value_rounds_to_even little_endian_host _ 2 _ 0 1 _ _
              H1 H2 H3)
    as (q8 & s8 & e8 & q4 & s4 & e4 & Q8 & _ & _ & _ & E8 & _).
  exists q8, s8, e8. split; [exact Q8 | exact E8].
Defined.

(** C3 (counterexample): the group [127; 2.5] has [wmax = 127] and
    [scale = 1]; the quotient 2.5 is a tie, which both rounding rules send to
    different integers.  Both codecs return 2 where rounding half away from
    zero gives 3 (the 4-bit group is [7; 2.5]). *)
Lemma tie_is_not_rounded_away_from_zero :
  (exists s e,
      quantize_q80 little_endian_host (vector [127; 5 # 2]%Q) 2
      = Ok ([[127; 2]], s, e))
  /\ group_quotient (Finite 127) [Finite 127; Finite (5 # 2)] (Finite (5 # 2))
     = Finite (5 # 2)
  /\ spec_quantize round_half_away 127 (5 # 2) = 3
  /\ (exists s e,
         quantize_q40 little_endian_host (vector [7; 5 # 2]%Q) 2
         = Ok ([[7; 2]], s, e))
  /\ group_quotient (Finite 7) [Finite 7; Finite (5 # 2)] (Finite (5 # 2))
     = Finite (5 # 2)
  /\ spec_quantize round_half_away 7 (5 # 2) = 3.
Proof.
  split; [eexists _, _; vm_compute; reflexivity|].
  split; [vm_compute; reflexivity|].
  split; [reflexivity|].
  split; [eexists _, _; vm_compute; reflexivity|].
  split; [vm_compute; reflexivity|].
  reflexivity.
Qed.

(** ** The reported error *)

Lemma seq_shift_by (g n : nat) : seq g n = map (fun i => (i + g)%nat) (seq 0 n).
Proof.
  revert g. induction n as [|n IH]; intros g; [reflexivity|].
  cbn [seq map]. f_equal. rewrite (IH (S g)), (IH 1%nat), map_map.
  apply map_ext. intros i. lia.
Qed.

Lemma map_nth_seq {A B : Type} (F : A -> B) (l : list A) (d : A) :
  map (fun i => F (nth i l d)) (seq 0 (length l)) = map F l.
Proof.
  induction l as [|a l IH]; [reflexivity|].
  cbn [length seq map]. f_equal.
  rewrite <- IH, seq_shift_by, map_map. apply map_ext. intros i.
  now rewrite Nat.add_1_r.
Qed.

(** Reading the flat buffer back group by group. *)
Lemma dequantize_by_group (g : nat) (qrows : list (list Z))
  (scales : list f32) :
  (0 < g)%nat -> Forall (fun row => length row = g) qrows ->
  length scales = length qrows ->
  dequantize (concat qrows) scales g
  = concat (map2 (fun row s => map (fun v => f32_mul (of_int8 v) s) row)
                 qrows scales).
Proof.
  intros Hg Hrows. revert scales.
  induction Hrows as [|row qrows Hrow Hrows IH]; intros scales Hlen.
  - destruct scales; [reflexivity | discriminate].
  - destruct scales as [|s scales]; [discriminate|].
    cbn [concat map2]. unfold dequantize.
    rewrite length_app, seq_app, map_app. f_equal.
    + rewrite <- (map_nth_seq (fun v => f32_mul (of_int8 v) s) row 0).
      apply map_ext_in. intros i Hi. apply in_seq in Hi.
      rewrite app_nth1 by lia.
      rewrite Nat.div_small by lia. reflexivity.
    + rewrite <- (IH scales) by (cbn [length] in Hlen; lia).
      unfold dequantize. cbn [Nat.add].
      rewrite (seq_shift_by (length row)), map_map.
      apply map_ext. intros i.
      rewrite app_nth2 by lia.
      replace (i + length row - length row)%nat with i by lia.
      rewrite Hrow.
      replace (i + g)%nat with (i + 1 * g)%nat by lia.
      rewrite Nat.div_add by lia. rewrite Nat.add_1_r. reflexivity.
Qed.

Lemma map2_concat {A B C : Type} (f : A -> B -> C) (l1 : list (list A))
  (l2 : list (list B)) :
  Forall2 (fun a b => length a = length b) l1 l2 ->
  map2 f (concat l1) (concat l2) = concat (map2 (map2 f) l1 l2).
Proof.
  induction 1 as [|a b l1 l2 Hab Hl IH]; [reflexivity|].
  cbn [concat map2]. rewrite map2_app by exact Hab. now rewrite IH.
Qed.

Lemma length_group_ints (h : Host) (M : f32) (post : Z -> Z)
  (row : list f32) :
  length (group_ints h M post row) = length row.
Proof. unfold group_ints, group_quant. now rewrite !length_map. Qed.

Lemma length_group_fp32 (h : Host) (M : f32) (post : Z -> Z)
  (row : list f32) :
  length (group_fp32 h M post row) = length row.
Proof. unfold group_fp32. now rewrite length_map, length_group_ints. Qed.

Lemma length_concat_map {A B : Type} (f : list A -> list B)
  (ll : list (list A)) :
  (forall l, length (f l) = length l) ->
  length (concat (map f ll)) = length (concat ll).
Proof.
  intros Hf. induction ll as [|l ll IH]; [reflexivity|].
  cbn [map concat]. now rewrite !length_app, Hf, IH.
Qed.

Lemma length_concat_rows {A : Type} (g : nat) (ll : list (list A)) :
  Forall (fun row => length row = g) ll ->
  length (concat ll) = (length ll * g)%nat.
Proof.
  induction 1 as [|row ll Hrow _ IH]; [reflexivity|].
  cbn [concat length]. rewrite length_app, IH, Hrow. lia.
Qed.

(** The errors recomputed from the flat integers and the scales are the
    errors of the groups, one group after the other. *)
Lemma errors_by_group (h : Host) (M : f32) (post : Z -> Z) (g : nat)
  (w : list (list f32)) :
  (0 < g)%nat -> Forall (fun row => length row = g) w ->
  reconstruction_errors (concat (map (group_ints h M post) w))
    (map (group_scale M) w) g (concat w)
  = concat (map (fun row =>
                   map2 (fun x y => f32_abs (f32_sub x y))
                        (group_fp32 h M post row) row) w).
Proof.
  intros Hg Hw. unfold reconstruction_errors.
  rewrite dequantize_by_group.
  - rewrite map2_map_map.
    change (map (fun row => map (fun v => f32_mul (of_int8 v)
                                            (group_scale M row))
                               (group_ints h M post row)) w)
      with (map (group_fp32 h M post) w).
    rewrite map2_concat.
    + now rewrite map2_map_l.
    + clear Hw. induction w as [|row w IH]; constructor;
        [apply length_group_fp32 | exact IH].
  - exact Hg.
  - apply Forall_map. eapply Forall_impl; [|exact Hw]. cbv beta.
    intros row Hrow. now rewrite length_group_ints.
  - now rewrite !length_map.
Qed.

Lemma group_errors_maximum (h : Host) (M : f32) (post : Z -> Z) (g : nat)
  (w : list (list f32)) :
  (0 < g)%nat -> w <> [] -> Forall (fun row => length row = g) w ->
  is_maximum (max_of (map (group_err h M post) w))
    (reconstruction_errors (concat (map (group_ints h M post) w))
       (map (group_scale M) w) g (concat w)).
Proof.
  intros Hg Hne Hw. rewrite errors_by_group by assumption.
  change (map (group_err h M post) w)
    with (map (fun row => max_of ((fun row =>
                 map2 (fun x y => f32_abs (f32_sub x y))
                      (group_fp32 h M post row) row) row)) w).
  rewrite <- (map_map _ max_of).
  apply max_of_rows.
  - destruct w; [congruence | discriminate].
  - apply Forall_map. eapply Forall_impl; [|exact Hw]. cbv beta.
    intros row Hrow E. apply (f_equal (@length f32)) in E.
    rewrite length_map2 in E by apply length_group_fp32.
    rewrite length_group_fp32, Hrow in E. cbn [length] in E. lia.
Qed.

(** What a quantizer returns for a tensor it accepts, group by group. *)
Lemma quantized_groups (h : Host) (M : f32) (post : Z -> Z)
  (t : tensor) (group_size : Z) (w : list (list f32)) :
  reshape (float t) group_size = Ok w ->
  let q := map (group_ints h M post) w in
  let s := map (group_scale M) w in
  Z.of_nat (length (concat q)) = numel t
  /\ Z.of_nat (length s) * group_size = numel t
  /\ Z.of_nat (length (reconstruction_errors (concat q) s
                         (Z.to_nat group_size) (float t))) = numel t
  /\ is_maximum (max_of (map (group_err h M post) w))
       (reconstruction_errors (concat q) s (Z.to_nat group_size) (float t)).
Proof.
  intros Hw q s.
  destruct (reshape_inv _ _ _ Hw) as (Hg & _ & Hne & Hrows & Hcat).
  assert (Hlen : length (concat w) = length (data t))
    by (rewrite Hcat; apply length_float).
  assert (Hq : length (concat q) = length (data t)).
  { unfold q. rewrite (length_concat_map _ _ (length_group_ints h M post)).
    exact Hlen. }
  assert (Hs : (length s * Z.to_nat group_size)%nat = length (data t)).
  { unfold s. rewrite length_map, <- Hlen.
    symmetry. now apply length_concat_rows. }
  unfold numel. split; [now rewrite Hq|]. split; [|split].
  - rewrite <- Hs, Nat2Z.inj_mul, Z2Nat.id by lia. reflexivity.
  - unfold reconstruction_errors, dequantize.
    rewrite length_map2; rewrite length_map, length_seq;
      [now rewrite Hq | now rewrite Hq, length_float].
  - rewrite <- Hcat. apply group_errors_maximum; [lia | assumption..].
Qed.

(** C4 (as amended): for every tensor a quantizer accepts (a positive
    group size that divides a positive element count) and both codecs,
    the quantizer returns one integer for every element and one scale for
    every group, and the error it returns is the maximum, over all
    elements, of the absolute difference between quantized * scale and the
    original as float32 computes them (the product and the difference are
    rounded, the original is the element converted to float32): it is one
    of these differences and no difference exceeds it.  (With a NaN among
    the differences the maximum is a NaN, as [torch.max] has it.) *)
Theorem reported_error_is_true_maximum (h : Host) (t : tensor)
  (group_size : Z) :
  0 < group_size -> 0 < numel t -> numel t mod group_size = 0 ->
  (exists q s e,
      quantize_q80 h t group_size = Ok (q, s, e)
      /\ Z.of_nat (length (concat q)) = numel t
      /\ Z.of_nat (length s) * group_size = numel t
      /\ Z.of_nat (length (reconstruction_errors (concat q) s
                             (Z.to_nat group_size) (float t))) = numel t
      /\ is_maximum e
           (reconstruction_errors (concat q) s (Z.to_nat group_size)
              (float t)))
  /\ (exists q s e,
         quantize_q40 h t group_size = Ok (q, s, e)
         /\ Z.of_nat (length (concat q)) = numel t
         /\ Z.of_nat (length s) * group_size = numel t
         /\ Z.of_nat (length (reconstruction_errors (concat q) s
                                (Z.to_nat group_size) (float t))) = numel t
         /\ is_maximum e
              (reconstruction_errors (concat q) s (Z.to_nat group_size)
                 (float t))).
Proof.
  intros Hg Hn Hm.
  destruct (reshape_float t group_size Hg Hn Hm) as [w Hw].
  split.
  - eexists _, _, _. split; [exact (quantize_q80_reshaped h t _ w Hw)|].
    destruct (q80_locals_groups h w) as (S8 & _ & I8 & _ & _ & M8).
    rewrite S8, I8, M8. now apply quantized_groups.
  - eexists _, _, _. split; [exact (quantize_q40_reshaped h t _ w Hw)|].
    destruct (q40_locals_groups h w) as (S4 & _ & I4 & _ & _ & M4).
    rewrite S4, I4, M4. now apply quantized_groups.
Qed.

Lemma reported_error_is_true_maximum_witness :
  0 < 2 /\ 0 < numel (vector [1; -2; 3; 5 # 2]%Q)
  /\ numel (vector [1; -2; 3; 5 # 2]%Q) mod 2 = 0
  /\ exists q s e,
       quantize_q40 little_endian_host (vector [1; -2; 3; 5 # 2]%Q) 2
       = Ok (q, s, e)
       /\ Z.of_nat (length (concat q)) = numel (vector [1; -2; 3; 5 # 2]%Q)
       /\ Z.of_nat (length s) * 2 = numel (vector [1; -2; 3; 5 # 2]%Q)
       /\ Z.of_nat (length (reconstruction_errors (concat q) s (Z.to_nat 2)
                              (float (vector [1; -2; 3; 5 # 2]%Q))))
          = numel (vector [1; -2; 3; 5 # 2]%Q)
       /\ is_maximum e
            (reconstruction_errors (concat q) s (Z.to_nat 2)
               (float (vector [1; -2; 3; 5 # 2]%Q))).
Proof.
  assert (H1 : 0 < 2) by lia.
  assert (H2 : 0 < numel (vector [1; -2; 3; 5 # 2]%Q)) by reflexivity.
  assert (H3 : numel (vector [1; -2; 3; 5 # 2]%Q) mod 2 = 0) by reflexivity.
  repeat (split; [assumption|]).
  exact (proj2 (reported_error_is_true_maximum little_endian_host
                  (vector [1; -2; 3; 5 # 2]%Q) 2 H1 H2 H3)).
Defined.

(** C4 (counterexample): on the tensor [1; 2], in one group, the 4-bit
    codec returns the integers [3; 7], the scale [fl (2 / 7)] and the
    error [|fl (3 * scale) - 1|], which float32 computes from the rounded
    product.  The exact difference between [3 * scale] and the original 1
    is larger than this reported error: the value [quantized * scale] is
    not within the reported error of the original. *)
Lemma reported_error_is_below_exact_difference :
  exists scale err,
    quantize_q40 little_endian_host (vector [1; 2]%Q) 2
    = Ok ([[3; 7]], [Finite scale], Finite err)
    /\ (err < Qabs (3 * scale - 1))%Q.
Proof.
  eexists _, _. split; [vm_compute; reflexivity|].
  vm_compute. reflexivity.
Qed.

(** ** Writing to the file *)

Lemma bind_write_packed_ok {B : Type} (b : list byte) (k : unit -> IO B)
  (f : file) :
  io_bind (write_packed (Ok b)) k f = k tt (f ++ b).
Proof. reflexivity. Qed.

Lemma bind_write_packed_raise {B : Type} (e : exn) (k : unit -> IO B)
  (f : file) :
  io_bind (write_packed (Raise e)) k f = (f, Raise e).
Proof. reflexivity. Qed.

Lemma bind_lift_ok {A B : Type} (a : A) (k : A -> IO B) (f : file) :
  io_bind (io_lift (Ok a)) k f = k a f.
Proof. reflexivity. Qed.

Lemma bind_lift_raise {A B : Type} (e : exn) (k : A -> IO B) (f : file) :
  io_bind (io_lift (@Raise A e)) k f = (f, Raise e).
Proof. reflexivity. Qed.

Lemma bind_tell {B : Type} (k : Z -> IO B) (f : file) :
  io_bind tell k f = k (Z.of_nat (length f)) f.
Proof. reflexivity. Qed.

Lemma bind_write {B : Type} (b : list byte) (k : unit -> IO B) (f : file) :
  io_bind (write b) k f = k tt (f ++ b).
Proof. reflexivity. Qed.

Lemma flat_map_map {A B C : Type} (g : A -> B) (k : B -> list C) (l : list A) :
  flat_map k (map g l) = flat_map (fun a => k (g a)) l.
Proof.
  induction l as [|a l IH]; [reflexivity|]. cbn [map flat_map]. now rewrite IH.
Qed.

Lemma serialize_fp32_write (h : Host) (d : list f32) :
  serialize_fp32 h d = write (pack_f h d).
Proof. unfold serialize_fp32. now rewrite pack_f_float. Qed.

Lemma io_for_fp32 {A : Type} (h : Host) (sel : A -> list f32) (l : list A)
  (f : file) :
  io_for l (fun x => serialize_fp32 h (sel x)) f
  = (f ++ flat_map (fun x => pack_f h (sel x)) l, Ok tt).
Proof.
  revert f. induction l as [|x l IH]; intros f; cbn [io_for flat_map].
  - unfold io_ret. now rewrite app_nil_r.
  - unfold io_bind at 1. rewrite serialize_fp32_write. unfold write.
    rewrite IH. now rewrite app_assoc.
Qed.

Lemma bind_io_for_fp32 {A B : Type} (h : Host) (sel : A -> list f32)
  (l : list A) (k : unit -> IO B) (f : file) :
  io_bind (io_for l (fun x => serialize_fp32 h (sel x))) k f
  = k tt (f ++ flat_map (fun x => pack_f h (sel x)) l).
Proof. unfold io_bind at 1. now rewrite io_for_fp32. Qed.

(** ** The header and the payload of version 1 *)

Lemma length_header_fields (model : Transformer) (hidden_dim : Z) :
  length (header_fields model hidden_dim) = 7%nat.
Proof. reflexivity. Qed.

Lemma header_layout_eq (h : Host) (version : Z) (fields : list Z)
  (flag : bool) (gs : option Z) (used : list byte) :
  used = int32_field h MAGIC ++ int32_field h version
         ++ flat_map (int32_field h) fields ++ [Z.b2z flag]
         ++ match gs with Some g => int32_field h g | None => [] end ->
  used ++ repeat 0 (Z.to_nat (256 - Z.of_nat (length used)))
  = header_layout h version fields flag gs.
Proof.
  intros ->. unfold header_layout. f_equal. f_equal. lia.
Qed.

Lemma header_pad_ok (h : Host) (version : Z) (fields : list Z)
  (flag : bool) (gs : option Z) (used : list byte) :
  length fields = 7%nat ->
  used = int32_field h MAGIC ++ int32_field h version
         ++ flat_map (int32_field h) fields ++ [Z.b2z flag]
         ++ match gs with Some g => int32_field h g | None => [] end ->
  py_assert (0 <=? 256 - Z.of_nat (length used)) = Ok tt.
Proof.
  intros Hf ->.
  rewrite !length_app, !length_int32_field, length_int32_fields, Hf.
  destruct gs as [g|]; [rewrite length_int32_field|]; reflexivity.
Qed.

Lemma length_header_layout (h : Host) (version : Z) (fields : list Z)
  (flag : bool) (gs : option Z) :
  length fields = 7%nat ->
  length (header_layout h version fields flag gs) = 256%nat.
Proof.
  intros Hf. unfold header_layout.
  rewrite length_app, repeat_length.
  rewrite !length_app, !length_int32_field, length_int32_fields, Hf.
  destruct gs as [g|]; [rewrite length_int32_field|]; reflexivity.
Qed.

Lemma version1_export_ok (h : Host) (model : Transformer) (fs : option file) :
  version1_export h model = (fs, Ok tt) ->
  exists hidden_dim,
    first_w1_rows model = Ok hidden_dim
    /\ Forall (fun v => - 2 ^ 31 <= v < 2 ^ 31) (header_fields model hidden_dim)
    /\ fs = Some
         (header_layout h 1 (header_fields model hidden_dim)
            (torch_equal (tok_embeddings model) (output model)) None
          ++ norms_payload h model
          ++ flat_map (fun w => pack_f h (data w))
               (ordered_heavy model
                  (torch_equal (tok_embeddings model) (output model)))).
Proof.
  unfold version1_export. cbv zeta.
  rewrite pack_I_MAGIC, bind_write_packed_ok.
  rewrite (pack_i_small h 1) by lia. rewrite bind_write_packed_ok.
  destruct (first_w1_rows model) as [hidden_dim|e] eqn:Hh;
    [rewrite bind_lift_ok | rewrite bind_lift_raise; discriminate].
  change [dim (params model); hidden_dim; n_layers (params model);
          n_heads (params model);
          match n_kv_heads (params model) with
          | Some k => k
          | None => n_heads (params model)
          end; vocab_size (params model); max_seq_len (params model)]
    with (header_fields model hidden_dim).
  destruct (pack_is h (header_fields model hidden_dim)) as [hb|e] eqn:Hp;
    [rewrite bind_write_packed_ok
    | rewrite bind_write_packed_raise; discriminate].
  apply pack_is_inv in Hp as [-> Hrange].
  rewrite pack_B_flag, bind_write_packed_ok, bind_tell.
  set (shared := torch_equal (tok_embeddings model) (output model)).
  match goal with
  | |- context [io_bind (io_lift (py_assert _)) _ ?f] => set (used := f)
  end.
  assert (Hused : used = int32_field h MAGIC ++ int32_field h 1
            ++ flat_map (int32_field h) (header_fields model hidden_dim)
            ++ [Z.b2z shared]
            ++ match @None Z with Some g => int32_field h g | None => [] end).
  { unfold used. cbn [app]. now rewrite <- !app_assoc. }
  rewrite (header_pad_ok h 1 _ shared None used (length_header_fields _ _)
             Hused).
  rewrite bind_lift_ok, bind_write.
  rewrite (header_layout_eq h 1 _ shared None used Hused).
  rewrite io_for_fp32.
  intros H; inversion H; subst fs; clear H.
  exists hidden_dim. split; [reflexivity|]. split; [exact Hrange|].
  f_equal. f_equal. unfold norms_payload, ordered_heavy.
  destruct shared;
    repeat first [ rewrite flat_map_app | rewrite flat_map_map
                 | rewrite <- app_assoc | rewrite app_nil_r
                 | progress cbn [flat_map app] ];
    reflexivity.
Qed.

(** ** The group-size backoff *)

Lemma halving_log2_up (g : Z) :
  2 <= Z.abs g -> Z.log2_up (Z.abs (g / 2)) < Z.log2_up (Z.abs g).
Proof.
  intros Hg.
  pose proof (Z.log2_up_spec (Z.abs g) ltac:(lia)) as [_ Hup].
  pose proof (Z.log2_up_pos (Z.abs g) ltac:(lia)) as Hpos.
  assert (Hle : Z.log2_up (Z.abs (g / 2)) <= Z.log2_up (Z.abs g) - 1);
    [|lia].
  assert (H0 : 0 < Z.abs (g / 2)) by (clear - Hg; div_lia).
  apply (proj1 (Z.log2_up_le_pow2 _ _ H0)).
  assert (Hpow : 2 ^ Z.log2_up (Z.abs g)
                 = 2 * 2 ^ (Z.log2_up (Z.abs g) - 1)).
  { rewrite <- Z.pow_succ_r by lia. f_equal. lia. }
  rewrite Hpow in Hup. clear - Hg Hup.
  generalize dependent (2 ^ (Z.log2_up (Z.abs g) - 1)). intros p Hp.
  div_lia.
Qed.

Lemma backoff_loop_enough_fuel (fuel : nat) (dim group_size : Z) :
  Z.log2_up (Z.abs group_size) < Z.of_nat fuel ->
  exists r, backoff_loop fuel dim group_size = Some r.
Proof.
  revert group_size. induction fuel as [|fuel IH]; intros g Hfuel.
  - pose proof (Z.log2_up_nonneg (Z.abs g)). lia.
  - cbn [backoff_loop].
    destruct (g =? 0) eqn:E0; [eexists; reflexivity|].
    destruct (dim mod g =? 0) eqn:Em; cbn [negb]; [eexists; reflexivity|].
    apply Z.eqb_neq in E0, Em. apply IH.
    assert (Hg : 2 <= Z.abs g).
    { destruct (Z.eq_dec g 1) as [->|]; [now rewrite Z.mod_1_r in Em|].
      destruct (Z.eq_dec g (-1)) as [->|]; [|lia].
      exfalso. apply Em. apply Z.mod_divide; [lia|].
      exists (- dim). lia. }
    pose proof (halving_log2_up g Hg). lia.
Qed.

(** The loop of the source always ends. *)
Lemma backoff_loop_terminates (dim group_size : Z) :
  exists r, backoff_loop (backoff_fuel group_size) dim group_size = Some r
            /\ backoff dim group_size = r.
Proof.
  destruct (backoff_loop_enough_fuel (backoff_fuel group_size) dim group_size)
    as [r Hr].
  - unfold backoff_fuel. pose proof (Z.log2_up_nonneg (Z.abs group_size)). lia.
  - exists r. split; [exact Hr|]. unfold backoff. now rewrite Hr.
Qed.

Lemma backoff_loop_divides (fuel : nat) (dim group_size gs : Z) :
  backoff_loop fuel dim group_size = Some (Ok gs) ->
  gs <> 0 /\ dim mod gs = 0.
Proof.
  revert group_size. induction fuel as [|fuel IH]; intros g; cbn [backoff_loop];
    [discriminate|].
  destruct (g =? 0) eqn:E0; [discriminate|].
  destruct (dim mod g =? 0) eqn:Em; cbn [negb]; [|apply IH].
  intros H; inversion H; subst. apply Z.eqb_neq in E0. apply Z.eqb_eq in Em.
  now split.
Qed.

(** From a positive group size the loop returns the first term of the
    sequence [g, g // 2, g // 4, ...] that divides the dimension. *)
Lemma backoff_loop_halving (fuel : nat) (dim group_size : Z) (r : result Z) :
  0 < group_size ->
  backoff_loop fuel dim group_size = Some r ->
  exists j, 0 <= j /\ r = Ok (group_size / 2 ^ j)
            /\ 0 < group_size / 2 ^ j
            /\ dim mod (group_size / 2 ^ j) = 0
            /\ forall i, 0 <= i < j -> dim mod (group_size / 2 ^ i) <> 0.
Proof.
  revert group_size. induction fuel as [|fuel IH]; intros g Hg;
    cbn [backoff_loop]; [discriminate|].
  destruct (g =? 0) eqn:E0; [apply Z.eqb_eq in E0; lia|].
  destruct (dim mod g =? 0) eqn:Em; cbn [negb].
  - intros H; inversion H; subst. apply Z.eqb_eq in Em.
    exists 0. rewrite Z.pow_0_r, Z.div_1_r.
    repeat split; try assumption; try lia.
  - apply Z.eqb_neq in Em. intros H.
    assert (Hg2 : 0 < g / 2).
    { destruct (Z.eq_dec g 1) as [->|]; [now rewrite Z.mod_1_r in Em|].
      apply Z.div_str_pos. lia. }
    destruct (IH _ Hg2 H) as (j & Hj & Hr & Hpos & Hdiv & Hmin).
    assert (Hshift : forall i, 0 <= i -> g / 2 / 2 ^ i = g / 2 ^ (i + 1)).
    { intros i Hi. rewrite Z.div_div by lia.
      f_equal. rewrite Z.pow_add_r by lia. lia. }
    exists (j + 1). rewrite <- Hshift by lia.
    repeat split; try assumption; try lia.
    intros i Hi. destruct (Z.eq_dec i 0) as [->|Hne].
    + now rewrite Z.pow_0_r, Z.div_1_r.
    + replace i with (i - 1 + 1) by lia. rewrite <- Hshift by lia.
      apply Hmin. lia.
Qed.

Lemma backoff_halving (dim group_size : Z) :
  0 < group_size ->
  exists j, 0 <= j /\ backoff dim group_size = Ok (group_size / 2 ^ j)
            /\ 0 < group_size / 2 ^ j
            /\ dim mod (group_size / 2 ^ j) = 0
            /\ forall i, 0 <= i < j -> dim mod (group_size / 2 ^ i) <> 0.
Proof.
  intros Hg. destruct (backoff_loop_terminates dim group_size) as (r & Hr & Hb).
  destruct (backoff_loop_halving _ _ _ _ Hg Hr) as (j & Hj & -> & H).
  exists j. split; [exact Hj|]. split; [exact Hb | exact H].
Qed.

Lemma backoff_divides (dim group_size gs : Z) :
  backoff dim group_size = Ok gs -> gs <> 0 /\ dim mod gs = 0.
Proof.
  destruct (backoff_loop_terminates dim group_size) as (r & Hr & Hb).
  rewrite Hb. intros ->. eapply backoff_loop_divides. exact Hr.
Qed.

(** From a power of two the loop returns the largest power of two that
    divides both the requested size and the dimension. *)
Lemma backoff_power_of_two (dim k : Z) :
  0 <= k ->
  exists gs, backoff dim (2 ^ k) = Ok gs
             /\ largest_common_power_of_two gs (2 ^ k) dim.
Proof.
  intros Hk.
  assert (Hg : 0 < 2 ^ k) by (apply Z.pow_pos_nonneg; lia).
  destruct (backoff_halving dim (2 ^ k) Hg)
    as (j & Hj & Hb & Hpos & Hdiv & Hmin).
  assert (Hjk : j <= k).
  { destruct (Z_le_gt_dec j k) as [|Hgt]; [assumption|].
    rewrite Z.div_small in Hpos; [lia|].
    split; [lia|]. apply Z.pow_lt_mono_r; lia. }
  assert (Hquot : forall i, 0 <= i <= k -> 2 ^ k / 2 ^ i = 2 ^ (k - i)).
  { intros i Hi. rewrite Z.pow_sub_r by lia. reflexivity. }
  exists (2 ^ k / 2 ^ j). split; [exact Hb|].
  rewrite Hquot in * by lia.
  repeat split.
  - exists (k - j). split; [lia | reflexivity].
  - exists (2 ^ j). rewrite <- Z.pow_add_r by lia. f_equal. lia.
  - apply Z.mod_divide; [lia | exact Hdiv].
  - intros r' (i & Hi & ->) Hreq Hdim.
    assert (Hik : i <= k).
    { apply Z.divide_pos_le in Hreq; [|lia].
      apply Z.pow_le_mono_r_iff in Hreq; lia. }
    destruct (Z_le_gt_dec i (k - j)) as [Hle|Hgt].
    + apply Z.pow_le_mono_r; lia.
    + exfalso. apply (Hmin (k - i)); [lia|].
      rewrite Hquot by lia. replace (k - (k - i)) with i by lia.
      apply Z.mod_divide; [|exact Hdim].
      pose proof (Z.pow_pos_nonneg 2 i). lia.
Qed.

(** ** The header and the payload of versions 2 and 3 *)

Lemma version2_is_grouped (h : Host) (model : Transformer) (group_size : Z) :
  version2_export h model group_size
  = grouped_export h 2 (quantize_q80 h) serialize_int8 model group_size.
Proof. reflexivity. Qed.

Lemma version3_is_grouped (h : Host) (model : Transformer) (group_size : Z) :
  version3_export h model group_size
  = grouped_export h 3 (quantize_q40 h) serialize_int4 model group_size.
Proof. reflexivity. Qed.

Lemma validate_inv (weights : list tensor) (group_size : Z) :
  validate weights group_size = Ok tt ->
  Forall (fun w => numel w mod group_size = 0) weights.
Proof.
  unfold validate. induction weights as [|w weights IH]; cbn [rfor];
    [constructor|].
  destruct (group_size =? 0); [discriminate|].
  destruct (numel w mod group_size =? 0) eqn:E; cbn [rbind]; [|discriminate].
  intros H. constructor; [now apply Z.eqb_eq | now apply IH].
Qed.

Lemma validate_raises (weights : list tensor) (group_size : Z) (w : tensor) :
  In w weights -> numel w mod group_size <> 0 ->
  exists e, validate weights group_size = Raise e.
Proof.
  unfold validate. intros Hin Hw.
  induction weights as [|w' weights IH]; [contradiction|]. cbn [rfor].
  destruct (group_size =? 0); [eexists; reflexivity|].
  destruct (numel w' mod group_size =? 0) eqn:E; cbn [rbind];
    [|eexists; reflexivity].
  destruct Hin as [-> | Hin]; [apply Z.eqb_eq in E; contradiction|].
  now apply IH.
Qed.

Lemma validate_passes (weights : list tensor) (group_size : Z) :
  group_size <> 0 ->
  Forall (fun w => numel w mod group_size = 0) weights ->
  validate weights group_size = Ok tt.
Proof.
  unfold validate. intros Hg Hall.
  induction Hall as [|w weights Hw Hall IH]; [reflexivity|]. cbn [rfor].
  rewrite IH. apply Z.eqb_neq in Hg. rewrite Hg.
  apply Z.eqb_eq in Hw. now rewrite Hw.
Qed.

Lemma ordered_heavy_eq (model : Transformer) (shared : bool) :
  (if shared then heavy_weights model
   else heavy_weights model ++ [output model])
  = ordered_heavy model shared.
Proof.
  unfold ordered_heavy, heavy_weights.
  destruct shared; rewrite <- ?app_assoc, ?app_nil_r; reflexivity.
Qed.

Lemma validation_inv (model : Transformer) (group_size gs : Z)
  (weights : list tensor) (shared : bool) :
  validation model group_size = Ok (gs, weights, shared) ->
  backoff (dim (params model)) group_size = Ok gs
  /\ shared = torch_equal (tok_embeddings model) (output model)
  /\ weights = ordered_heavy model shared
  /\ Forall (fun w => numel w mod gs = 0) weights.
Proof.
  unfold validation.
  destruct (backoff (dim (params model)) group_size) as [gs'|e];
    cbn [rbind]; [|discriminate].
  rewrite ordered_heavy_eq.
  destruct (validate _ gs') as [[]|e] eqn:Hv; cbn [rbind]; [|discriminate].
  intros H; inversion H; subst. apply validate_inv in Hv.
  repeat split; assumption.
Qed.

(** A codec: a quantizer with the serializer of its integers, which
    writes one byte for every integer of the flat tensor it is given. *)
Section Codec.

Variable h : Host.
Variable quantize : tensor -> Z -> result (list (list Z) * list f32 * f32).
Variable serialize : list (list Z) -> IO unit.
Variable pack : list Z -> list Z.
Hypothesis serialize_run :
  forall q f0, serialize q f0 = (f0 ++ pack_b (pack (flat_int8 q)), Ok tt).

(** The loop that quantizes and writes the heavy tensors: when it ends
    without an exception every tensor was quantized, and the file received,
    tensor by tensor, the integers and then the scales. *)
Lemma quantizing_loop (group_size : Z) (weights : list tensor) (f f' : file) :
  io_for weights (fun w =>
    (qse <- io_lift (quantize w group_size) ;;
     let '(q, s, err) := qse in
     serialize q ;; serialize_fp32 h s)%io) f = (f', Ok tt) ->
  exists qs,
    Forall2 (fun w qse => quantize w group_size = Ok qse) weights qs
    /\ f' = f ++ flat_map (quantized_bytes h pack) qs.
Proof.
  revert f.
  induction weights as [|w weights IH]; intros f; cbn [io_for].
  - unfold io_ret. intros H; inversion H; subst.
    exists []. split; [constructor | now rewrite app_nil_r].
  - unfold io_bind at 1.
    destruct (quantize w group_size) as [[[q s] err]|e] eqn:Hq.
    + rewrite bind_lift_ok. unfold io_bind at 1. rewrite serialize_run.
      rewrite serialize_fp32_write. unfold write. intros H.
      destruct (IH _ H) as (qs & Hqs & ->).
      exists ((q, s, err) :: qs). split; [now constructor|].
      cbn [flat_map quantized_bytes]. now rewrite !app_assoc.
    + rewrite bind_lift_raise. discriminate.
Qed.

(** A loop over tensors that all quantize runs to its end. *)
Lemma quantizing_loop_total (group_size : Z) (weights : list tensor)
  (f : file) :
  Forall (fun w => exists qse, quantize w group_size = Ok qse) weights ->
  exists f',
    io_for weights (fun w =>
      (qse <- io_lift (quantize w group_size) ;;
       let '(q, s, err) := qse in
       serialize q ;; serialize_fp32 h s)%io) f = (f', Ok tt).
Proof.
  intros Hall. revert f.
  induction Hall as [|w weights [[[q s] err] Hq] Hall IH]; intros f;
    cbn [io_for].
  - eexists. reflexivity.
  - unfold io_bind at 1. rewrite Hq, bind_lift_ok.
    unfold io_bind at 1. rewrite serialize_run.
    rewrite serialize_fp32_write. unfold write. apply IH.
Qed.

(** What a quantizing export that ends without an exception has written. *)
Lemma grouped_export_ok (version : Z) (model : Transformer) (group_size : Z)
  (fs : option file) :
  - 2 ^ 31 <= version < 2 ^ 31 ->
  grouped_export h version quantize serialize model group_size = (fs, Ok tt) ->
  exists gs hidden_dim qs,
    backoff (dim (params model)) group_size = Ok gs
    /\ first_w1_rows model = Ok hidden_dim
    /\ Forall (fun v => - 2 ^ 31 <= v < 2 ^ 31)
         (gs :: header_fields model hidden_dim)
    /\ Forall2 (fun w qse => quantize w gs = Ok qse)
         (ordered_heavy model
            (torch_equal (tok_embeddings model) (output model))) qs
    /\ fs = Some
         (header_layout h version (header_fields model hidden_dim)
            (torch_equal (tok_embeddings model) (output model)) (Some gs)
          ++ norms_payload h model
          ++ flat_map (quantized_bytes h pack) qs).
Proof.
  intros Hversion. unfold grouped_export.
  destruct (validation model group_size) as [[[gs weights] shared]|e]
    eqn:Hval; [|discriminate].
  apply validation_inv in Hval as (Hb & Hshared & Hweights & Hdiv).
  cbv zeta.
  rewrite pack_I_MAGIC, bind_write_packed_ok.
  rewrite (pack_i_small h version) by exact Hversion.
  rewrite bind_write_packed_ok.
  destruct (first_w1_rows model) as [hidden_dim|e] eqn:Hh;
    [rewrite bind_lift_ok | rewrite bind_lift_raise; discriminate].
  destruct (pack_is h (header_fields model hidden_dim)) as [hb|e] eqn:Hp;
    [rewrite bind_write_packed_ok
    | rewrite bind_write_packed_raise; discriminate].
  apply pack_is_inv in Hp as [-> Hrange].
  rewrite pack_B_flag, bind_write_packed_ok.
  destruct (pack_i h gs) as [gb|e] eqn:Hg;
    [rewrite bind_write_packed_ok
    | rewrite bind_write_packed_raise; discriminate].
  apply pack_i_inv in Hg as [-> Hgs].
  rewrite bind_tell.
  match goal with
  | |- context [io_bind (io_lift (py_assert _)) _ ?f] => set (used := f)
  end.
  assert (Hused : used = int32_field h MAGIC ++ int32_field h version
            ++ flat_map (int32_field h) (header_fields model hidden_dim)
            ++ [Z.b2z shared]
            ++ match Some gs with Some g => int32_field h g | None => [] end)
    by (unfold used; cbn [app]; now rewrite <- !app_assoc).
  rewrite (header_pad_ok h version _ shared (Some gs) used
             (length_header_fields _ _) Hused).
  rewrite bind_lift_ok, bind_write.
  rewrite (header_layout_eq h version _ shared (Some gs) used Hused).
  rewrite !bind_io_for_fp32.
  unfold io_bind at 1; rewrite serialize_fp32_write; unfold write at 1.
  match goal with
  | |- (let (f, r) := ?loop ?f0 in _) = _ -> _ =>
      destruct (loop f0) as [f' r] eqn:Hloop
  end.
  intros H; inversion H; subst fs r; clear H.
  apply quantizing_loop in Hloop as (qs & Hqs & ->).
  exists gs, hidden_dim, qs. subst shared weights.
  repeat split; try assumption; [now constructor|].
  f_equal. unfold norms_payload. now rewrite <- !app_assoc.
Qed.

(** A quantizing export ends without an exception when the backoff returns
    a group size, the header values fit in 32 bits and the quantizer accepts
    every heavy tensor, none of which is empty. *)
Lemma grouped_export_succeeds (version : Z) (model : Transformer)
  (group_size gs hidden_dim : Z) :
  - 2 ^ 31 <= version < 2 ^ 31 ->
  (forall w, 0 < numel w -> numel w mod gs = 0 ->
             exists qse, quantize w gs = Ok qse) ->
  backoff (dim (params model)) group_size = Ok gs ->
  first_w1_rows model = Ok hidden_dim ->
  Forall (fun v => - 2 ^ 31 <= v < 2 ^ 31)
    (gs :: header_fields model hidden_dim) ->
  Forall (fun w => 0 < numel w /\ numel w mod gs = 0)
    (ordered_heavy model (torch_equal (tok_embeddings model) (output model))) ->
  exists f,
    grouped_export h version quantize serialize model group_size
    = (Some f, Ok tt).
Proof.
  intros Hversion Hquant Hb Hh Hr Hall.
  inversion Hr as [|? ? Hgs Hfields]; subst.
  destruct (backoff_divides _ _ _ Hb) as [Hnz _].
  unfold grouped_export, validation.
  rewrite Hb. cbn [rbind]. rewrite ordered_heavy_eq.
  rewrite validate_passes;
    [|exact Hnz | eapply Forall_impl; [|exact Hall]; now intros w [_ Hw]].
  cbn [rbind]. cbv zeta.
  rewrite pack_I_MAGIC, bind_write_packed_ok.
  rewrite (pack_i_small h version Hversion), bind_write_packed_ok.
  rewrite Hh, bind_lift_ok.
  rewrite (pack_is_small h _ Hfields), bind_write_packed_ok.
  rewrite pack_B_flag, bind_write_packed_ok.
  rewrite (pack_i_small h gs Hgs), bind_write_packed_ok, bind_tell.
  match goal with
  | |- context [io_bind (io_lift (py_assert _)) _ ?f] => set (used := f)
  end.
  assert (Hused : used = int32_field h MAGIC ++ int32_field h version
            ++ flat_map (int32_field h) (header_fields model hidden_dim)
            ++ [Z.b2z (torch_equal (tok_embeddings model) (output model))]
            ++ match Some gs with Some g => int32_field h g | None => [] end)
    by (unfold used; cbn [app]; now rewrite <- !app_assoc).
  rewrite (header_pad_ok h version _ _ (Some gs) used
             (length_header_fields _ _) Hused).
  rewrite bind_lift_ok, bind_write, !bind_io_for_fp32.
  unfold io_bind at 1; rewrite serialize_fp32_write; unfold write at 1.
  match goal with
  | |- exists f, (let (_, _) := ?loop ?f0 in _) = _ =>
      destruct (quantizing_loop_total gs
                  (ordered_heavy model
                     (torch_equal (tok_embeddings model) (output model)))
                  f0) as [f' Hloop]
  end.
  { eapply Forall_impl; [|exact Hall]. intros w [H1 H2]. now apply Hquant. }
  rewrite Hloop. eexists. reflexivity.
Qed.

End Codec.

(** ** Every export *)

Lemma header_slices (h : Host) (version : Z) (fields : list Z) (flag : bool)
  (gs : option Z) (payload : list byte) :
  length fields = 7%nat ->
  laid_out h version fields flag gs
    (header_layout h version fields flag gs ++ payload) payload.
Proof.
  intros Hf.
  destruct fields as [|a0 [|a1 [|a2 [|a3 [|a4 [|a5 [|a6 [|]]]]]]]];
    try discriminate.
  unfold laid_out, header_layout, int32_field, native_bytes.
  destruct (big_endian h), gs; cbn [le_bytes rev app flat_map length];
    repeat split; reflexivity.
Qed.

Lemma exported_inv (h : Host) (model : Transformer) (group_size version : Z)
  (fs : option file) :
  exported h model group_size version fs ->
  exists hidden_dim gs payload,
    first_w1_rows model = Ok hidden_dim
    /\ Forall (fun v => - 2 ^ 31 <= v < 2 ^ 31)
         (header_fields model hidden_dim)
    /\ (version = 1 /\ gs = None
        \/ (version = 2 \/ version = 3)
           /\ exists g, gs = Some g /\ - 2 ^ 31 <= g < 2 ^ 31
                        /\ backoff (dim (params model)) group_size = Ok g)
    /\ payload_of h model group_size version
         (ordered_heavy model
            (torch_equal (tok_embeddings model) (output model))) payload
    /\ fs = Some
         (header_layout h version (header_fields model hidden_dim)
            (torch_equal (tok_embeddings model) (output model)) gs
          ++ payload).
Proof.
  intros [[-> H] | [[-> H] | [-> H]]].
  - apply version1_export_ok in H as (hd & Hh & Hr & ->).
    exists hd, None. eexists.
    split; [exact Hh|]. split; [exact Hr|].
    split; [left; now split|].
    split; [|reflexivity]. left. split; reflexivity.
  - rewrite version2_is_grouped in H.
    apply (grouped_export_ok h _ _ (fun d => d)) in H
      as (gs & hd & qs & Hb & Hh & Hr & Hq & ->); [|reflexivity|lia].
    inversion Hr as [|? ? Hgs Hr']; subst.
    exists hd, (Some gs). eexists.
    split; [exact Hh|]. split; [exact Hr'|].
    split; [right; split; [now left|]; exists gs; now repeat split|].
    split; [|reflexivity].
    right. left. split; [reflexivity|]. exists gs, qs. now repeat split.
  - rewrite version3_is_grouped in H.
    apply (grouped_export_ok h _ _ (map int4_byte)) in H
      as (gs & hd & qs & Hb & Hh & Hr & Hq & ->); [|reflexivity|lia].
    inversion Hr as [|? ? Hgs Hr']; subst.
    exists hd, (Some gs). eexists.
    split; [exact Hh|]. split; [exact Hr'|].
    split; [right; split; [now right|]; exists gs; now repeat split|].
    split; [|reflexivity].
    right. right. split; [reflexivity|]. exists gs, qs. now repeat split.
Qed.

Lemma model_export_exported (h : Host) (model : Transformer) (version : Z)
  (fs : option file) :
  model_export h model version = (fs, Ok tt) ->
  exported h model 64 version fs.
Proof.
  unfold model_export, exported.
  destruct (version =? 1) eqn:E1; [apply Z.eqb_eq in E1; auto|].
  destruct (version =? 2) eqn:E2; [apply Z.eqb_eq in E2; auto|].
  destruct (version =? 3) eqn:E3; [apply Z.eqb_eq in E3; auto|].
  discriminate.
Qed.

Lemma header_kv_slice (h : Host) (version a0 a1 a2 a3 a4 a5 a6 : Z)
  (flag : bool) (gs : option Z) (payload : list byte) :
  firstn 4 (skipn 24 (header_layout h version [a0; a1; a2; a3; a4; a5; a6]
                        flag gs ++ payload))
  = int32_field h a4.
Proof.
  unfold header_layout, int32_field, native_bytes.
  destruct (big_endian h), gs; reflexivity.
Qed.

(** C5: a successful export of version 1, 2 or 3 (through [model_export]
    or by a direct call) leaves a file that starts with the magic number
    0x616B3432 at bytes 0-3 and the version at bytes 4-7, followed by the
    seven parameters (bytes 8-35), the flag byte (byte 36) and, for versions
    2 and 3, the group size (bytes 37-40); the bytes up to 256 are zero and
    the tensor payload starts at byte 256. *)
Theorem header_is_256_bytes (h : Host) (model : Transformer)
  (group_size version : Z) (fs : option file) :
  exported h model group_size version fs ->
  exists f hidden_dim gs payload,
    fs = Some f
    /\ first_w1_rows model = Ok hidden_dim
    /\ (version = 1 /\ gs = None
        \/ (version = 2 \/ version = 3) /\ exists g, gs = Some g)
    /\ laid_out h version (header_fields model hidden_dim)
         (torch_equal (tok_embeddings model) (output model)) gs f payload
    /\ payload_of h model group_size version
         (ordered_heavy model
            (torch_equal (tok_embeddings model) (output model))) payload.
Proof.
  intros H.
  apply exported_inv in H as (hd & gs & payload & Hh & _ & Hgs & Hp & ->).
  eexists _, hd, gs, payload.
  split; [reflexivity|]. split; [exact Hh|]. split.
  - destruct Hgs as [Hv | [Hv (g & Hg & _)]]; [now left|].
    right. split; [exact Hv|]. now exists g.
  - split; [|exact Hp]. apply header_slices. reflexivity.
Qed.

Lemma header_is_256_bytes_witness :
  exported little_endian_host tiny_shared 64 2
    (fst (model_export little_endian_host tiny_shared 2))
  /\ exists f hidden_dim gs payload,
       fst (model_export little_endian_host tiny_shared 2) = Some f
       /\ first_w1_rows tiny_shared = Ok hidden_dim
       /\ (2 = 1 /\ gs = None \/ (2 = 2 \/ 2 = 3) /\ exists g, gs = Some g)
       /\ laid_out little_endian_host 2 (header_fields tiny_shared hidden_dim)
            (torch_equal (tok_embeddings tiny_shared) (output tiny_shared))
            gs f payload
       /\ payload_of little_endian_host tiny_shared 64 2
            (ordered_heavy tiny_shared
               (torch_equal (tok_embeddings tiny_shared)
                  (output tiny_shared))) payload.
Proof.
  assert (H : exported little_endian_host tiny_shared 64 2
                (fst (model_export little_endian_host tiny_shared 2))).
  { apply model_export_exported. vm_compute. reflexivity. }
  split; [exact H|].
  exact (header_is_256_bytes _ _ _ _ _ H).
Defined.

Lemma torch_equal_identical (a b : tensor) :
  torch_equal a b = true <-> identical a b.
Proof.
  unfold torch_equal, identical.
  destruct (list_eq_dec Z.eq_dec (shape a) (shape b)) as [Hs | Hs];
    cbn [andb]; [|split; [discriminate | intros [H _]; contradiction]].
  generalize (data a) (data b). intros l1 l2. split.
  - intros H. split; [exact Hs|].
    apply andb_true_iff in H as [Hlen Hall]. apply Nat.eqb_eq in Hlen.
    revert l2 Hlen Hall. induction l1 as [|x l1 IH]; intros [|y l2] Hlen Hall;
      try discriminate; constructor.
    + cbn in Hall. now apply andb_true_iff in Hall as [Hxy _].
    + apply IH; [now inversion Hlen|].
      cbn in Hall. now apply andb_true_iff in Hall as [_ Hall].
  - intros [_ H]. induction H as [|x y l1 l2 Hxy H IH]; [reflexivity|].
    apply andb_true_iff in IH as [Hlen Hall]. apply andb_true_iff. split.
    + cbn [length]. exact Hlen.
    + cbn. apply andb_true_iff. split; [exact Hxy | exact Hall].
Qed.

Lemma torch_equal_numel (a b : tensor) :
  torch_equal a b = true -> numel a = numel b.
Proof.
  intros H. apply torch_equal_identical in H as [_ H].
  unfold numel. f_equal. eapply Forall2_length. exact H.
Qed.

(** C6: in the file of every successful export the payload that follows the
    header holds the tensors in this order: the attention norms of all
    layers, the feed-forward norms of all layers, the final norm, then the
    heavy tensors: the token embedding, then wq, wk, wv, wo, w1, w2, w3,
    each for all layers before the next, then the output projection if it
    is not shared.  In versions 2 and 3 the bytes of a heavy tensor are its
    quantized integers followed by its scales as float32. *)
Theorem tensors_in_fixed_order (h : Host) (model : Transformer)
  (group_size version : Z) (fs : option file) :
  exported h model group_size version fs ->
  exists f,
    fs = Some f
    /\ payload_of h model group_size version
         ([tok_embeddings model]
          ++ map wq (layers model) ++ map wk (layers model)
          ++ map wv (layers model) ++ map wo (layers model)
          ++ map w1 (layers model) ++ map w2 (layers model)
          ++ map w3 (layers model)
          ++ (if torch_equal (tok_embeddings model) (output model)
              then [] else [output model]))
         (skipn 256 f).
Proof.
  intros H.
  apply exported_inv in H as (hd & gs & payload & _ & _ & _ & Hp & ->).
  eexists. split; [reflexivity|].
  destruct (header_slices h version (header_fields model hd)
              (torch_equal (tok_embeddings model) (output model)) gs payload
              eq_refl) as (_ & _ & _ & _ & _ & ->).
  exact Hp.
Qed.

Lemma tensors_in_fixed_order_witness :
  exported little_endian_host tiny_unshared 64 3
    (fst (model_export little_endian_host tiny_unshared 3))
  /\ exists f,
       fst (model_export little_endian_host tiny_unshared 3) = Some f
       /\ payload_of little_endian_host tiny_unshared 64 3
            ([tok_embeddings tiny_unshared]
             ++ map wq (layers tiny_unshared) ++ map wk (layers tiny_unshared)
             ++ map wv (layers tiny_unshared) ++ map wo (layers tiny_unshared)
             ++ map w1 (layers tiny_unshared) ++ map w2 (layers tiny_unshared)
             ++ map w3 (layers tiny_unshared)
             ++ (if torch_equal (tok_embeddings tiny_unshared)
                      (output tiny_unshared)
                 then [] else [output tiny_unshared]))
            (skipn 256 f).
Proof.
  assert (H : exported little_endian_host tiny_unshared 64 3
                (fst (model_export little_endian_host tiny_unshared 3))).
  { apply model_export_exported. vm_compute. reflexivity. }
  split; [exact H|].
  exact (tensors_in_fixed_order _ _ _ _ _ H).
Defined.

Lemma header_flag_slice (h : Host) (version : Z) (fields : list Z)
  (flag : bool) (gs : option Z) (payload : list byte) :
  length fields = 7%nat ->
  nth_error (header_layout h version fields flag gs ++ payload) 36
  = Some (Z.b2z flag).
Proof.
  intros Hf.
  destruct fields as [|a0 [|a1 [|a2 [|a3 [|a4 [|a5 [|a6 [|]]]]]]]];
    try discriminate.
  unfold header_layout, int32_field, native_bytes.
  destruct (big_endian h), gs; reflexivity.
Qed.

(** C7: in every successful export the flag byte (byte 36) is 1 and the
    output projection is left out of the payload exactly when the token
    embedding and the output projection are identical element by element;
    when they differ, in one element or more, the flag is 0 and the output
    projection is the last tensor of the payload. *)
Theorem shared_classifier_flag (h : Host) (model : Transformer)
  (group_size version : Z) (fs : option file) :
  exported h model group_size version fs ->
  exists f,
    fs = Some f
    /\ (identical (tok_embeddings model) (output model) ->
        nth_error f 36 = Some 1
        /\ payload_of h model group_size version (heavy_weights model)
             (skipn 256 f))
    /\ (~ identical (tok_embeddings model) (output model) ->
        nth_error f 36 = Some 0
        /\ payload_of h model group_size version
             (heavy_weights model ++ [output model]) (skipn 256 f)).
Proof.
  intros H.
  apply exported_inv in H as (hd & gs & payload & _ & _ & _ & Hp & ->).
  eexists. split; [reflexivity|].
  rewrite header_flag_slice by reflexivity.
  destruct (header_slices h version (header_fields model hd)
              (torch_equal (tok_embeddings model) (output model)) gs payload
              eq_refl) as (_ & _ & _ & _ & _ & ->).
  rewrite <- ordered_heavy_eq in Hp.
  destruct (torch_equal (tok_embeddings model) (output model)) eqn:E.
  - apply torch_equal_identical in E. split; [now split | contradiction].
  - split; [|now split].
    intros Hid. apply torch_equal_identical in Hid. congruence.
Qed.

Lemma shared_classifier_flag_witness :
  exported little_endian_host tiny_unshared 64 1
    (fst (model_export little_endian_host tiny_unshared 1))
  /\ exists f,
       fst (model_export little_endian_host tiny_unshared 1) = Some f
       /\ (identical (tok_embeddings tiny_unshared) (output tiny_unshared) ->
           nth_error f 36 = Some 1
           /\ payload_of little_endian_host tiny_unshared 64 1
                (heavy_weights tiny_unshared) (skipn 256 f))
       /\ (~ identical (tok_embeddings tiny_unshared) (output tiny_unshared) ->
           nth_error f 36 = Some 0
           /\ payload_of little_endian_host tiny_unshared 64 1
                (heavy_weights tiny_unshared ++ [output tiny_unshared])
                (skipn 256 f)).
Proof.
  assert (H : exported little_endian_host tiny_unshared 64 1
                (fst (model_export little_endian_host tiny_unshared 1))).
  { apply model_export_exported. vm_compute. reflexivity. }
  split; [exact H|].
  exact (shared_classifier_flag _ _ _ _ _ H).
Defined.

(** C10: in every successful export, of any version, bytes 24-27 of the
    header (the [n_kv_heads] field) hold [n_kv_heads] when the parameters
    set it and [n_heads] when they leave it unset; either way a 32-bit
    integer. *)
Theorem kv_heads_field_defaults_to_heads (h : Host) (model : Transformer)
  (group_size version : Z) (fs : option file) :
  exported h model group_size version fs ->
  exists f kv,
    fs = Some f
    /\ kv = match n_kv_heads (params model) with
            | None => n_heads (params model)
            | Some k => k
            end
    /\ firstn 4 (skipn 24 f) = int32_field h kv
    /\ - 2 ^ 31 <= kv < 2 ^ 31.
Proof.
  intros H.
  apply exported_inv in H as (hd & gs & payload & _ & Hr & _ & _ & ->).
  eexists _, _. split; [reflexivity|]. split; [reflexivity|].
  unfold header_fields in *. split; [apply header_kv_slice|].
  repeat match goal with
         | H : Forall _ (_ :: _) |- _ => inversion H; subst; clear H
         end.
  assumption.
Qed.

Lemma kv_heads_field_defaults_to_heads_witness :
  exported little_endian_host tiny_shared 64 3
    (fst (model_export little_endian_host tiny_shared 3))
  /\ exists f kv,
       fst (model_export little_endian_host tiny_shared 3) = Some f
       /\ kv = match n_kv_heads (params tiny_shared) with
               | None => n_heads (params tiny_shared)
               | Some k => k
               end
       /\ firstn 4 (skipn 24 f) = int32_field little_endian_host kv
       /\ - 2 ^ 31 <= kv < 2 ^ 31.
Proof.
  assert (H : exported little_endian_host tiny_shared 64 3
                (fst (model_export little_endian_host tiny_shared 3))).
  { apply model_export_exported. vm_compute. reflexivity. }
  split; [exact H|].
  exact (kv_heads_field_defaults_to_heads _ _ _ _ _ H).
Defined.

Lemma header_group_size_slice (h : Host) (version : Z) (fields : list Z)
  (flag : bool) (g : Z) (payload : list byte) :
  length fields = 7%nat ->
  firstn 4 (skipn 37 (header_layout h version fields flag (Some g) ++ payload))
  = int32_field h g.
Proof.
  intros Hf.
  destruct (header_slices h version fields flag (Some g) payload Hf)
    as (_ & _ & _ & _ & [H _] & _).
  exact H.
Qed.

(** C8 (as amended): in every successful export of version 2 or 3 the
    group size recorded in the header (bytes 37-40) and used to quantize
    every heavy tensor is the one the backoff loop returns.  From a positive
    requested size [g] it is the first of [g, g // 2, g // 4, ...] that
    divides the dimension; when the requested size is a power of two, as the
    default 64 is, it is the largest power of two that divides both the
    requested size and the dimension. *)
Theorem group_size_backoff (h : Host) (model : Transformer)
  (group_size version : Z) (fs : option file) :
  exported h model group_size version fs ->
  version = 2 \/ version = 3 ->
  exists f gs,
    fs = Some f
    /\ backoff (dim (params model)) group_size = Ok gs
    /\ firstn 4 (skipn 37 f) = int32_field h gs
    /\ (version = 2 ->
        exists qs,
          Forall2 (fun w qse => quantize_q80 h w gs = Ok qse)
            (ordered_heavy model
               (torch_equal (tok_embeddings model) (output model))) qs
          /\ skipn 256 f
             = norms_payload h model
               ++ flat_map (quantized_bytes h (fun d => d)) qs)
    /\ (version = 3 ->
        exists qs,
          Forall2 (fun w qse => quantize_q40 h w gs = Ok qse)
            (ordered_heavy model
               (torch_equal (tok_embeddings model) (output model))) qs
          /\ skipn 256 f
             = norms_payload h model
               ++ flat_map (quantized_bytes h (map int4_byte)) qs)
    /\ (0 < group_size ->
        exists j, 0 <= j /\ gs = group_size / 2 ^ j
                  /\ dim (params model) mod gs = 0
                  /\ forall i, 0 <= i < j ->
                               dim (params model) mod (group_size / 2 ^ i) <> 0)
    /\ (forall k, 0 <= k -> group_size = 2 ^ k ->
        largest_common_power_of_two gs group_size (dim (params model))).
Proof.
  intros H Hv.
  apply exported_inv in H as (hd & gso & payload & _ & _ & Hgs & Hp & ->).
  destruct Hgs as [[-> _] | [_ (gs & -> & _ & Hb)]]; [lia|].
  eexists _, gs. split; [reflexivity|]. split; [exact Hb|].
  rewrite header_group_size_slice by reflexivity. split; [reflexivity|].
  destruct (header_slices h version (header_fields model hd)
              (torch_equal (tok_embeddings model) (output model)) (Some gs)
              payload eq_refl) as (_ & _ & _ & _ & _ & ->).
  split; [|split; [|split]].
  - intros ->. destruct Hp as [[? _] | [[_ Hp] | [? _]]]; try discriminate.
    destruct Hp as (gs' & qs & Hb' & Hq & ->).
    assert (gs' = gs) by congruence. subst gs'. now exists qs.
  - intros ->. destruct Hp as [[? _] | [[? _] | [_ Hp]]]; try discriminate.
    destruct Hp as (gs' & qs & Hb' & Hq & ->).
    assert (gs' = gs) by congruence. subst gs'. now exists qs.
  - intros Hg.
    destruct (backoff_halving (dim (params model)) group_size Hg)
      as (j & Hj & Hb' & _ & Hdiv & Hmin).
    assert (gs = group_size / 2 ^ j) by congruence. subst gs.
    exists j. now repeat split.
  - intros k Hk ->.
    destruct (backoff_power_of_two (dim (params model)) k Hk)
      as (gs' & Hb' & Hl).
    assert (gs' = gs) by congruence. now subst gs'.
Qed.

Lemma group_size_backoff_witness :
  exported little_endian_host tiny_shared 64 2
    (fst (model_export little_endian_host tiny_shared 2))
  /\ (2 = 2 \/ 2 = 3)
  /\ exists f gs,
       fst (model_export little_endian_host tiny_shared 2) = Some f
       /\ backoff (dim (params tiny_shared)) 64 = Ok gs
       /\ firstn 4 (skipn 37 f) = int32_field little_endian_host gs
       /\ largest_common_power_of_two gs 64 (dim (params tiny_shared)).
Proof.
  assert (H : exported little_endian_host tiny_shared 64 2
                (fst (model_export little_endian_host tiny_shared 2))).
  { apply model_export_exported. vm_compute. reflexivity. }
  assert (Hv : 2 = 2 \/ 2 = 3) by (left; reflexivity).
  split; [exact H|]. split; [exact Hv|].
  destruct (group_size_backoff _ _ _ _ _ H Hv)
    as (f & gs & Hf & Hb & Hg & _ & _ & _ & Hpow).
  exists f, gs. split; [exact Hf|]. split; [exact Hb|]. split; [exact Hg|].
  exact (Hpow 6 ltac:(lia) eq_refl).
Defined.

Lemma six_not_power_of_two : ~ power_of_two 6.
Proof.
  intros (j & Hj & E).
  assert (Hc : j = 0 \/ j = 1 \/ j = 2 \/ 3 <= j) by lia.
  destruct Hc as [-> | [-> | [-> | Hc]]]; try discriminate.
  assert (2 ^ 3 <= 2 ^ j) by (apply Z.pow_le_mono_r; lia).
  change (2 ^ 3) with 8 in *. lia.
Qed.

(** C8 (counterexample): asked for groups of 12 on a model of dimension 6,
    version 2 halves 12 once and records and uses 6, which is not a power
    of two; the largest power of two that divides 12 and 6 is 2. *)
Lemma backoff_from_twelve_gives_six :
  (exists f,
      version2_export little_endian_host six_model 12 = (Some f, Ok tt)
      /\ firstn 4 (skipn 37 f) = int32_field little_endian_host 6)
  /\ backoff (dim (params six_model)) 12 = Ok 6
  /\ ~ largest_common_power_of_two 6 12 (dim (params six_model))
  /\ largest_common_power_of_two 2 12 (dim (params six_model)).
Proof.
  split; [|split; [reflexivity|split]].
  - eexists. split; [vm_compute; reflexivity|]. reflexivity.
  - intros [Hp _]. exact (six_not_power_of_two Hp).
  - change (dim (params six_model)) with 6. repeat split.
    + exists 1. split; [lia | reflexivity].
    + exists 6. reflexivity.
    + exists 3. reflexivity.
    + intros r' (j & Hj & ->) _ Hd.
      assert (Hc : j = 0 \/ j = 1 \/ j = 2 \/ 3 <= j) by lia.
      destruct Hc as [-> | [-> | [-> | Hc]]]; try (cbn; lia).
      * destruct Hd as [c Hc]. cbn in Hc. lia.
      * apply Z.divide_pos_le in Hd; [|lia].
        assert (2 ^ 3 <= 2 ^ j) by (apply Z.pow_le_mono_r; lia).
        change (2 ^ 3) with 8 in *. lia.
Qed.

(** ** Requests that are refused *)

Lemma validation_raises (model : Transformer) (group_size gs : Z)
  (w : tensor) :
  backoff (dim (params model)) group_size = Ok gs ->
  In w (heavy_weights model ++ [output model]) ->
  numel w mod gs <> 0 ->
  exists e, validation model group_size = Raise e.
Proof.
  intros Hb Hin Hw. unfold validation. rewrite Hb. cbn [rbind].
  assert (Hex : exists w', In w' (if torch_equal (tok_embeddings model)
                                        (output model)
                                  then heavy_weights model
                                  else heavy_weights model ++ [output model])
                           /\ numel w' mod gs <> 0).
  { destruct (torch_equal (tok_embeddings model) (output model)) eqn:E;
      [|now exists w].
    apply in_app_or in Hin as [Hin | [<- | []]]; [now exists w|].
    exists (tok_embeddings model). split; [now left|].
    now rewrite (torch_equal_numel _ _ E). }
  destruct Hex as (w' & Hin' & Hw').
  destruct (validate_raises _ gs w' Hin' Hw') as [e He].
  exists e. now rewrite He.
Qed.

Lemma grouped_export_refused (h : Host) (version : Z)
  (quantize : tensor -> Z -> result (list (list Z) * list f32 * f32))
  (serialize : list (list Z) -> IO unit) (model : Transformer)
  (group_size : Z) (e : exn) :
  validation model group_size = Raise e ->
  grouped_export h version quantize serialize model group_size
  = (None, Raise e).
Proof. intros H. unfold grouped_export. now rewrite H. Qed.

(** C9: a request for a version other than 1, 2 or 3 raises before the file
    is opened; so does, in versions 2 and 3, a heavy tensor (the embedding,
    a per-layer weight or the output projection) whose element count is not
    a multiple of the group size the backoff returns.  In both cases no file
    is left: the first component of the result is [None]. *)
Theorem invalid_requests_write_nothing (h : Host) (model : Transformer) :
  (forall version,
      version <> 1 -> version <> 2 -> version <> 3 ->
      model_export h model version = (None, Raise ValueError))
  /\ (forall group_size gs w,
         backoff (dim (params model)) group_size = Ok gs ->
         In w (heavy_weights model ++ [output model]) ->
         numel w mod gs <> 0 ->
         (exists e, version2_export h model group_size = (None, Raise e))
         /\ (exists e, version3_export h model group_size = (None, Raise e)))
  /\ (forall version gs w,
         version = 2 \/ version = 3 ->
         backoff (dim (params model)) 64 = Ok gs ->
         In w (heavy_weights model ++ [output model]) ->
         numel w mod gs <> 0 ->
         exists e, model_export h model version = (None, Raise e)).
Proof.
  assert (Hdirect : forall group_size gs w,
             backoff (dim (params model)) group_size = Ok gs ->
             In w (heavy_weights model ++ [output model]) ->
             numel w mod gs <> 0 ->
             (exists e, version2_export h model group_size = (None, Raise e))
             /\ (exists e, version3_export h model group_size
                           = (None, Raise e))).
  { intros g gs w Hb Hin Hw.
    destruct (validation_raises model g gs w Hb Hin Hw) as [e He].
    split; exists e.
    - rewrite version2_is_grouped. now apply grouped_export_refused.
    - rewrite version3_is_grouped. now apply grouped_export_refused. }
  split; [|split; [exact Hdirect|]].
  - intros v H1 H2 H3. unfold model_export.
    apply Z.eqb_neq in H1, H2, H3. now rewrite H1, H2, H3.
  - intros v gs w Hv Hb Hin Hw.
    destruct (Hdirect 64 gs w Hb Hin Hw) as [H2 H3].
    destruct Hv as [-> | ->]; [exact H2 | exact H3].
Qed.

Lemma invalid_requests_write_nothing_witness :
  model_export little_endian_host tiny_odd 0 = (None, Raise ValueError)
  /\ backoff (dim (params tiny_odd)) 64 = Ok 2
  /\ In (tok_embeddings tiny_odd)
       (heavy_weights tiny_odd ++ [output tiny_odd])
  /\ numel (tok_embeddings tiny_odd) mod 2 <> 0
  /\ exists e, model_export little_endian_host tiny_odd 3 = (None, Raise e).
Proof.
  assert (H1 : backoff (dim (params tiny_odd)) 64 = Ok 2) by reflexivity.
  assert (H2 : In (tok_embeddings tiny_odd)
                 (heavy_weights tiny_odd ++ [output tiny_odd]))
    by (left; reflexivity).
  assert (H3 : numel (tok_embeddings tiny_odd) mod 2 <> 0)
    by (vm_compute; discriminate).
  split.
  - apply (proj1 (invalid_requests_write_nothing little_endian_host tiny_odd));
      lia.
  - repeat (split; [assumption|]).
    exact (proj2 (proj2 (invalid_requests_write_nothing little_endian_host
                           tiny_odd))
             3 2 _ (or_intror eq_refl) H1 H2 H3).
Defined.

(** ** Exports that succeed *)

(** Version 1 ends without an exception on every model with a layer whose
    [w1] has a first dimension, when the seven parameters fit in 32 bits. *)
Lemma version1_export_succeeds (h : Host) (model : Transformer)
  (hidden_dim : Z) :
  first_w1_rows model = Ok hidden_dim ->
  Forall (fun v => - 2 ^ 31 <= v < 2 ^ 31) (header_fields model hidden_dim) ->
  exists f, version1_export h model = (Some f, Ok tt).
Proof.
  intros Hh Hr. unfold version1_export. cbv zeta.
  rewrite pack_I_MAGIC, bind_write_packed_ok.
  rewrite (pack_i_small h 1) by lia. rewrite bind_write_packed_ok.
  rewrite Hh, bind_lift_ok.
  change [dim (params model); hidden_dim; n_layers (params model);
          n_heads (params model);
          match n_kv_heads (params model) with
          | Some k => k
          | None => n_heads (params model)
          end; vocab_size (params model); max_seq_len (params model)]
    with (header_fields model hidden_dim).
  rewrite (pack_is_small h _ Hr), bind_write_packed_ok.
  rewrite pack_B_flag, bind_write_packed_ok, bind_tell.
  match goal with
  | |- context [io_bind (io_lift (py_assert _)) _ ?f] => set (used := f)
  end.
  assert (Hused : used = int32_field h MAGIC ++ int32_field h 1
            ++ flat_map (int32_field h) (header_fields model hidden_dim)
            ++ [Z.b2z (torch_equal (tok_embeddings model) (output model))]
            ++ match @None Z with Some g => int32_field h g | None => [] end).
  { unfold used. cbn [app]. now rewrite <- !app_assoc. }
  rewrite (header_pad_ok h 1 _ _ None used (length_header_fields _ _) Hused).
  rewrite bind_lift_ok, bind_write, io_for_fp32.
  eexists. reflexivity.
Qed.

(** Both quantizers accept every tensor with a positive number of elements
    that the positive group size divides. *)
Lemma quantizers_total (h : Host) (w : tensor) (group_size : Z) :
  0 < group_size -> 0 < numel w -> numel w mod group_size = 0 ->
  (exists qse, quantize_q80 h w group_size = Ok qse)
  /\ (exists qse, quantize_q40 h w group_size = Ok qse).
Proof.
  intros Hg Hn Hm.
  destruct (reshape_float w group_size Hg Hn Hm) as [rows Hrows].
  split; eexists.
  - exact (quantize_q80_reshaped h w _ rows Hrows).
  - exact (quantize_q40_reshaped h w _ rows Hrows).
Qed.

Lemma version2_export_succeeds (h : Host) (model : Transformer)
  (group_size gs hidden_dim : Z) :
  backoff (dim (params model)) group_size = Ok gs -> 0 < gs ->
  first_w1_rows model = Ok hidden_dim ->
  Forall (fun v => - 2 ^ 31 <= v < 2 ^ 31)
    (gs :: header_fields model hidden_dim) ->
  Forall (fun w => 0 < numel w /\ numel w mod gs = 0)
    (ordered_heavy model (torch_equal (tok_embeddings model) (output model))) ->
  exists f, version2_export h model group_size = (Some f, Ok tt).
Proof.
  intros Hb Hpos Hh Hr Hall. rewrite version2_is_grouped.
  eapply (grouped_export_succeeds h _ _ (fun d => d));
    try eassumption; [reflexivity | lia |].
  intros w Hn Hm. now apply quantizers_total.
Qed.

Lemma version3_export_succeeds (h : Host) (model : Transformer)
  (group_size gs hidden_dim : Z) :
  backoff (dim (params model)) group_size = Ok gs -> 0 < gs ->
  first_w1_rows model = Ok hidden_dim ->
  Forall (fun v => - 2 ^ 31 <= v < 2 ^ 31)
    (gs :: header_fields model hidden_dim) ->
  Forall (fun w => 0 < numel w /\ numel w mod gs = 0)
    (ordered_heavy model (torch_equal (tok_embeddings model) (output model))) ->
  exists f, version3_export h model group_size = (Some f, Ok tt).
Proof.
  intros Hb Hpos Hh Hr Hall. rewrite version3_is_grouped.
  eapply (grouped_export_succeeds h _ _ (map int4_byte));
    try eassumption; [reflexivity | lia |].
  intros w Hn Hm. now apply quantizers_total.
Qed.

(** ** The arithmetic of the model and IEEE 754 *)

(** On the sample operands, in every pair, the division, the
    multiplication and the subtraction of the model give the values of
    the standard library's specification of binary32. *)
Lemma arithmetic_agrees_on_samples :
  agree_on_samples f32_div binary32_div = true
  /\ agree_on_samples f32_mul binary32_mul = true
  /\ agree_on_samples f32_sub binary32_sub = true.
Proof. repeat split; vm_compute; reflexivity. Qed.

(** Converting a float32 changes nothing, on the samples. *)
Lemma conversion_agrees_on_samples :
  forallb (fun x => f32_same (to_float32 (binary32_value x))
                      (binary32_value x)) binary32_samples
  = true.
Proof. vm_compute. reflexivity. Qed.

(** On a group of zeros binary32 computes [scale = 0 / 127 = 0] and
    [0 / scale] is NaN, as in the model. *)
Lemma binary32_zero_group :
  binary32_value (binary32_div (binary32 0 0) (binary32 127 0)) = Finite 0
  /\ binary32_value
       (binary32_div (binary32 0 0)
          (binary32_div (binary32 0 0) (binary32 127 0)))
     = f32_div (Finite 0) (f32_div (Finite 0) (Finite 127)).
Proof. split; reflexivity. Qed.

(** On the groups [127; 2.5] and [7; 2.5] binary32 computes the scale 1 and
    the quotient 2.5 without rounding: the tie is there in float32. *)
Lemma binary32_tie :
  binary32_value
    (binary32_div (binary32 5 (-1))
       (binary32_div (binary32 127 0) (binary32 127 0)))
  = Finite (5 # 2)
  /\ binary32_value
       (binary32_div (binary32 5 (-1))
          (binary32_div (binary32 7 0) (binary32 7 0)))
     = Finite (5 # 2).
Proof. split; reflexivity. Qed.

(** On the tensor [1; 2] the 4-bit codec divides 1 by the float32 scale
    [fl (2 / 7)]: the quotient is 3.4999998, which rounds to 3, where the
    exact quotient [1 / (2 / 7)] is the tie 3.5.  The model and binary32
    give the same quotient, the same product [3 * scale] and the same
    error. *)
Lemma binary32_one_of_two :
  let scale := binary32_div (binary32 2 0) (binary32 7 0) in
  let quotient := binary32_div (binary32 1 0) scale in
  let error :=
    SFabs (binary32_sub (binary32_mul (binary32 3 0) scale) (binary32 1 0)) in
  binary32_value quotient
  = group_quotient (Finite 7) [Finite 1; Finite 2] (Finite 1)
  /\ binary32_value quotient = Finite (14680063 # 4194304)
  /\ round_half_even (14680063 # 4194304) = 3
  /\ round_half_even (1 / (2 / 7)) = 4
  /\ quantize_q40 little_endian_host (vector [1; 2]%Q) 2
     = Ok ([[3; 7]], [binary32_value scale], binary32_value error).
Proof. repeat split; vm_compute; reflexivity. Qed.
